(** * nedis: a schema-validating table layer over a Redis store

    Shallow embedding of [src/nedis.ts] (class [NedisClient]) and
    [src/errors.ts], with the properties of the record store stated and
    proved over it.

    A client method is a state-passing computation over the client
    object: it returns the outcome of its promise (resolved with a value
    or rejected with an error) together with the client after the call.
    The ioredis connection is a field of the client and carries the
    database; a rejected call keeps the writes made before the rejection,
    as the store has no multi-key transaction. *)

From stdpp Require Import base option list strings gmap fin_maps pretty.
From Stdlib Require Import ZArith.

Local Open Scope string_scope.
Local Open Scope Z_scope.
Local Open Scope list_scope.

(** ** JavaScript values and objects *)

(** A record field holds a string or a number.  Numbers are the
    integer-valued ones below 1e21 in size, which [String(n)] writes in
    plain decimal; fractions and larger numbers, which it writes with a
    point or an exponent, are outside the model. *)
Inductive JsValue : Type :=
| JStr (s : string)
| JNum (n : Z).

#[global] Instance JsValue_eq_dec : EqDecision JsValue.
Proof. solve_decision. Defined.

(** A flat JavaScript object: property name to value.  Equality of the
    maps is deep equality of the objects. *)
Abbreviation JsObject := (gmap string JsValue).

(** [String(v)], the rendering the redis client applies to command
    arguments. *)
Definition js_to_string (v : JsValue) : string :=
  match v with
  | JStr s => s
  | JNum n => pretty n
  end.

(** An element of [Array.prototype.join]: [undefined] renders as the
    empty string, anything else as [String(v)]. *)
Definition join_elem (v : option JsValue) : string :=
  match v with
  | None => ""
  | Some v => js_to_string v
  end.

(** Truthiness of [obj[field]]: a missing property is [undefined], the
    empty string and the number zero are falsy. *)
Definition truthy (v : option JsValue) : bool :=
  match v with
  | None => false
  | Some (JStr s) => negb (bool_decide (s = ""))
  | Some (JNum n) => negb (bool_decide (n = 0))
  end.

(** The object a hash read resolves with: every value is a string. *)
Definition hash_object (h : gmap string string) : JsObject := JStr <$> h.

(** The hash fields a command writes for an object. *)
Definition object_fields (o : JsObject) : gmap string string := js_to_string <$> o.

(** [Object.assign(target, source)]: properties of [source] win. *)
Definition object_assign (target source : JsObject) : JsObject := source ∪ target.

(** ** Errors ([src/errors.ts]) *)

Inductive NedisError : Type :=
| ConnectionError (message : string)
| DatabaseInsertError (key errorMessage : string)
| DuplicateSchemaError (tableName : string)
| ItemNotFoundError (key table : string)
| ItemAlreadyExistsError (key : string)
| UnregisteredSchemaError (tableName : string)
| ValidationError (JoiMessage : string)
| ReplyError (message : string).
(* [ReplyError] is the error of the redis client itself, not a class of
   [errors.ts]. *)

#[global] Instance NedisError_eq_dec : EqDecision NedisError.
Proof. solve_decision. Defined.

(** The double quote character, and a text between double quotes. *)
Definition dquote : string := String (Ascii.ascii_of_nat 34) EmptyString.

Definition quoted (s : string) : string := dquote +:+ s +:+ dquote.

(** [err.message], as the constructors of [errors.ts] build it. *)
Definition message (e : NedisError) : string :=
  match e with
  | ConnectionError m => "Connection Error: " +:+ m
  | DatabaseInsertError key m =>
      "Error inserting into key " +:+ quoted key +:+ ". Error: " +:+ m
  | DuplicateSchemaError t => quoted t +:+ " schema is already registered."
  | ItemNotFoundError key t =>
      quoted t +:+ " item by primary key " +:+ quoted key +:+ " does not exist."
  | ItemAlreadyExistsError key => "Item with key " +:+ quoted key +:+ " already exists."
  | UnregisteredSchemaError t => "Schema " +:+ quoted t +:+ " is not registered."
  | ValidationError m => m
  | ReplyError m => m
  end.

Definition is_DatabaseInsertError (e : NedisError) : bool :=
  match e with
  | DatabaseInsertError _ _ => true
  | _ => false
  end.

(** ** Types ([src/types.ts]) *)

(** A Joi schema is used through [Joi.validate(data, schema)] only: it
    yields no error, or an error with a message. *)
Definition JoiObject : Type := JsObject → option string.

Record SchemaDefinition : Type := {
  name : string;
  pk : string;
  schema : JoiObject;
}.

(** Both fields are optional in the interface.  [None] is a property
    that is absent; a property that is present with the value
    [undefined], which [Object.assign] would copy over a default, is
    outside the model. *)
Record NedisConfig : Type := {
  host : option string;
  port : option Z;
}.

(** A template literal renders a missing value as [undefined]. *)
Definition template_part (v : option JsValue) : string :=
  match v with
  | None => "undefined"
  | Some v => js_to_string v
  end.

(** ** The redis store *)

(** The store is the external collaborator of section 6 of the
    specification.  Its commands are modelled by what redis documents for
    them: a key holds a string, a hash or a list; a hash or list command
    on a key of another kind fails with WRONGTYPE; a read of a missing
    key answers the empty hash or list; a list that loses its last element
    is removed. *)

(** The value held under a key. *)
Inductive RedisValue : Type :=
| RString (s : string)
| RHash (h : gmap string string)
| RList (l : list string).

Abbreviation Database := (gmap string RedisValue).

(** The ioredis handle: whether the server can be reached, and the
    server's database. *)
Record Redis : Type := {
  reachable : bool;
  db : Database;
}.

Definition wrongtype : NedisError :=
  ReplyError "WRONGTYPE Operation against a key holding the wrong kind of value".

(** A list key is removed when its last element goes. *)
Definition store_list (l : list string) : option RedisValue :=
  match l with
  | [] => None
  | _ => Some (RList l)
  end.

(** [list.remove(count = 1)]: drop the first occurrence. *)
Fixpoint remove_first (v : string) (l : list string) : list string :=
  match l with
  | [] => []
  | x :: l' => if decide (x = v) then l' else x :: remove_first v l'
  end.

(** Reply of each command on a database: an error, or a value and the
    database after the command. *)
Definition reply (A : Type) : Type := NedisError + A * Database.

Definition cmd_exists (key : string) (d : Database) : reply bool :=
  inr (bool_decide (is_Some (d !! key)), d).

Definition cmd_hgetall (key : string) (d : Database) : reply (gmap string string) :=
  match d !! key with
  | None => inr (∅, d)
  | Some (RHash h) => inr (h, d)
  | Some _ => inl wrongtype
  end.

Definition cmd_hmset (key : string) (fields : gmap string string) (d : Database)
  : reply unit :=
  if decide (fields = ∅)
  then inl (ReplyError "ERR wrong number of arguments for 'hmset' command")
  else match d !! key with
       | None => inr (tt, <[key := RHash fields]> d)
       | Some (RHash h) => inr (tt, <[key := RHash (fields ∪ h)]> d)
       | Some _ => inl wrongtype
       end.

Definition cmd_del (key : string) (d : Database) : reply unit :=
  inr (tt, delete key d).

Definition cmd_lrange_all (key : string) (d : Database) : reply (list string) :=
  match d !! key with
  | None => inr ([], d)
  | Some (RList l) => inr (l, d)
  | Some _ => inl wrongtype
  end.

Definition cmd_rpush (key value : string) (d : Database) : reply unit :=
  match d !! key with
  | None => inr (tt, <[key := RList [value]]> d)
  | Some (RList l) => inr (tt, <[key := RList (l ++ [value])]> d)
  | Some _ => inl wrongtype
  end.

Definition cmd_lrem_first (key value : string) (d : Database) : reply unit :=
  match d !! key with
  | None => inr (tt, d)
  | Some (RList l) => inr (tt, partial_alter (λ _, store_list (remove_first value l)) key d)
  | Some _ => inl wrongtype
  end.

(** ** The client and its promises *)

Record NedisClient : Type := {
  config : NedisConfig;
  registeredSchemas : list SchemaDefinition;
  redis : Redis;
  connected : bool;
}.

Definition set_schemas (l : list SchemaDefinition) (c : NedisClient) : NedisClient :=
  {| config := config c; registeredSchemas := l; redis := redis c;
     connected := connected c |}.

Definition set_connected (c : NedisClient) : NedisClient :=
  {| config := config c; registeredSchemas := registeredSchemas c;
     redis := redis c; connected := true |}.

Definition set_db (d : Database) (c : NedisClient) : NedisClient :=
  {| config := config c; registeredSchemas := registeredSchemas c;
     redis := {| reachable := reachable (redis c); db := d |};
     connected := connected c |}.

Inductive Outcome (A : Type) : Type :=
| Resolved (a : A)
| Rejected (e : NedisError).
Arguments Resolved {A} a.
Arguments Rejected {A} e.

Definition Promise (A : Type) : Type := NedisClient → Outcome A * NedisClient.

Definition resolve {A} (a : A) : Promise A := λ c, (Resolved a, c).

Definition throw {A} (e : NedisError) : Promise A := λ c, (Rejected e, c).

Definition await {A B} (m : Promise A) (k : A → Promise B) : Promise B :=
  λ c, match m c with
       | (Resolved a, c') => k a c'
       | (Rejected e, c') => (Rejected e, c')
       end.

Definition try_catch {A} (m : Promise A) (handler : NedisError → Promise A) : Promise A :=
  λ c, match m c with
       | (Resolved a, c') => (Resolved a, c')
       | (Rejected e, c') => handler e c'
       end.

Declare Scope promise_scope.
Delimit Scope promise_scope with promise.
Notation "x <- m ;; k" := (await m (λ x, k))
  (at level 100, m at next level, right associativity) : promise_scope.
Notation "m ;; k" := (await m (λ _, k))
  (at level 100, right associativity) : promise_scope.
Local Open Scope promise_scope.

(** A command sent through the ioredis handle.  A server that can be
    reached answers every command, so a command fails there by its reply
    only; a connection lost between two commands of one operation is
    outside the model.  A server that cannot be reached makes the command
    fail inside the redis client, with an error of that client whose text
    stands for whatever text the client gives it. *)
Definition send {A} (cmd : Database → reply A) : Promise A :=
  λ c, if reachable (redis c)
       then match cmd (db (redis c)) with
            | inr (a, d) => (Resolved a, set_db d c)
            | inl e => (Rejected e, c)
            end
       else (Rejected (ReplyError "Connection is closed."), c).

(** [redis.connect()] *)
Definition redis_connect : Promise unit :=
  λ c, if reachable (redis c)
       then (Resolved tt, c)
       else (Rejected (ReplyError "connect ECONNREFUSED"), c).

Module NedisClient.

Definition registerSchema (SchemaDef : SchemaDefinition) : Promise unit :=
  λ c, match find (λ s, bool_decide (name s = name SchemaDef)) (registeredSchemas c) with
       | Some _ => (Rejected (DuplicateSchemaError (name SchemaDef)), c)
       | None => (Resolved tt, set_schemas (registeredSchemas c ++ [SchemaDef]) c)
       end.

(** [SchemaDefs.map(sd => { this.registerSchema(sd); })]: the callback
    runs on the elements in order, and an exception ends the loop. *)
Fixpoint registerSchemas (SchemaDefs : list SchemaDefinition) : Promise unit :=
  match SchemaDefs with
  | [] => resolve tt
  | sd :: rest => registerSchema sd ;; registerSchemas rest
  end.

Definition getRegisteredSchemas (c : NedisClient) : list SchemaDefinition :=
  registeredSchemas c.

Definition validateSchema (table : string) : Promise SchemaDefinition :=
  λ c, match find (λ s, bool_decide (name s = table)) (registeredSchemas c) with
       | Some matchingSchema => (Resolved matchingSchema, c)
       | None => (Rejected (UnregisteredSchemaError table), c)
       end.

Definition validateData (data : JsObject) (JoiSchema : JoiObject) : Promise bool :=
  match JoiSchema data with
  | None => resolve true
  | Some msg => throw (ValidationError msg)
  end.

(** [[table, pk].join(':')] *)
Definition getKey (table pk : string) : string := table +:+ ":" +:+ pk.

Definition connect : Promise unit :=
  try_catch
    (redis_connect ;; λ c, (Resolved tt, set_connected c))
    (λ _ c, (Rejected (ConnectionError
               ("Could not connect to redis at "
                +:+ template_part (JStr <$> host (config c)) +:+ ":"
                +:+ template_part (JNum <$> port (config c)))), c)).

Definition checkConnection : Promise unit :=
  λ c, if connected c then (Resolved tt, c) else connect c.

Definition lmembers (table : string) : Promise (list string) :=
  send (cmd_lrange_all table).

Definition addToIndex (table key : string) : Promise bool :=
  checkConnection ;;
  members <- lmembers table ;;
  if bool_decide (key ∈ members)
  then throw (DatabaseInsertError key "Key doesnt exist but key is in table set.")
  else send (cmd_rpush table key) ;; resolve true.

(** [data[schemaDef.pk]] is read as the own property of [data]: the model
    of the lookup for every field name that objects do not inherit (see
    [ordinary_field] below). *)
Definition insert (table : string) (data : JsObject) : Promise bool :=
  checkConnection ;;
  schemaDef <- validateSchema table ;;
  validateData data (schema schemaDef) ;;
  let key := getKey table (join_elem (data !! pk schemaDef)) in
  keyExists <- send (cmd_exists key) ;;
  if keyExists : bool
  then throw (ItemAlreadyExistsError key)
  else try_catch
         (addToIndex table key ;;
          send (cmd_hmset key (object_fields data)) ;;
          resolve true)
         (λ err, if is_DatabaseInsertError err
                 then throw err
                 else throw (DatabaseInsertError key (message err))).

(** [result[schemaDef.pk]] is read as the own property of [result], as in
    [insert]. *)
Definition get (table pk' : string) : Promise JsObject :=
  checkConnection ;;
  schemaDef <- validateSchema table ;;
  result <- send (cmd_hgetall (table +:+ ":" +:+ pk')) ;;
  let result := hash_object result in
  if truthy (result !! pk schemaDef)
  then resolve result
  else throw (ItemNotFoundError pk' table).

(** [Promise.all] over the reads, in the order of the members; the reads
    change nothing, and the first failing one rejects the whole. *)
Fixpoint hgetall_each (members : list string) : Promise (list JsObject) :=
  match members with
  | [] => resolve []
  | key :: rest =>
      h <- send (cmd_hgetall key) ;;
      hs <- hgetall_each rest ;;
      resolve (hash_object h :: hs)
  end.

Definition getAll (table : string) : Promise (list JsObject) :=
  checkConnection ;;
  validateSchema table ;;
  members <- lmembers table ;;
  hgetall_each members.

Definition update (table pk' : string) (data : JsObject) : Promise JsObject :=
  checkConnection ;;
  item <- get table pk' ;;
  let updatedObject := object_assign item data in
  send (cmd_hmset (getKey table pk') (object_fields updatedObject)) ;;
  resolve updatedObject.

Definition delete (table pk' : string) : Promise bool :=
  checkConnection ;;
  get table pk' ;;
  let key := getKey table pk' in
  send (cmd_lrem_first table key) ;;
  send (cmd_del key) ;;
  resolve true.

(** [Object.assign({host: 'localhost', port: 6379}, config)] *)
Definition setConfig (cfg : NedisConfig) : NedisConfig :=
  {| host := Some (default "localhost" (host cfg));
     port := Some (default 6379 (port cfg)) |}.

(** [new NedisClient(config)], with the server its handle will talk to. *)
Definition createClient (cfg : NedisConfig) (server : Redis) : NedisClient :=
  {| config := setConfig cfg; registeredSchemas := []; redis := server;
     connected := false |}.

End NedisClient.

Import NedisClient.

(** ** The first version of the client ([src/src/nedis.ts]) *)

(** Its methods are synchronous and read or extend the registry only, so
    they are functions of [this.registeredSchemas].  Its three error
    classes are local to the file and build their messages without
    quotes. *)
Module Legacy.

Inductive Error : Type :=
| UnregisteredSchemaError (tableName : string)
| ValidationError (JoiMessage : string)
| DuplicateSchemaError (tableName : string).

Definition message (e : Error) : string :=
  match e with
  | UnregisteredSchemaError t => "Schema " +:+ t +:+ " is not registered."
  | ValidationError m => m
  | DuplicateSchemaError t => t +:+ " schema is already registered."
  end.

Definition registerSchema (SchemaDef : SchemaDefinition)
    (registeredSchemas : list SchemaDefinition) : Error + list SchemaDefinition :=
  match find (λ s, bool_decide (name s = name SchemaDef)) registeredSchemas with
  | Some _ => inl (DuplicateSchemaError (name SchemaDef))
  | None => inr (registeredSchemas ++ [SchemaDef])
  end.

Definition getSchema (table : string) (registeredSchemas : list SchemaDefinition)
  : Error + SchemaDefinition :=
  match find (λ s, bool_decide (name s = table)) registeredSchemas with
  | Some matchingSchema => inr matchingSchema
  | None => inl (UnregisteredSchemaError table)
  end.

Definition validateData (data : JsObject) (JoiSchema : JoiObject) : Error + bool :=
  match JoiSchema data with
  | None => inr true
  | Some msg => inl (ValidationError msg)
  end.

(** [insert] of this version validates and stores nothing. *)
Definition insert (table : string) (data : JsObject)
    (registeredSchemas : list SchemaDefinition) : Error + unit :=
  match getSchema table registeredSchemas with
  | inl e => inl e
  | inr schemaDef =>
      match validateData data (schema schemaDef) with
      | inl e => inl e
      | inr _ => inr tt
      end
  end.

End Legacy.

(** The error of the current version that corresponds to one of the first. *)
Definition current_error (e : Legacy.Error) : NedisError :=
  match e with
  | Legacy.UnregisteredSchemaError t => UnregisteredSchemaError t
  | Legacy.ValidationError m => ValidationError m
  | Legacy.DuplicateSchemaError t => DuplicateSchemaError t
  end.

(** * Vocabulary of the properties *)

(** The server answers: what every statement about a completed operation
    assumes. *)
Definition ready (c : NedisClient) : Prop := reachable (redis c) = true.

(** [table] resolves to [sd] in the registry. *)
Definition registered (c : NedisClient) (table : string) (sd : SchemaDefinition) : Prop :=
  find (λ s, bool_decide (name s = table)) (registeredSchemas c) = Some sd.

(** The members of a table's index, when the key holds a list or nothing. *)
Definition members_of (d : Database) (table : string) : option (list string) :=
  match d !! table with
  | None => Some []
  | Some (RList l) => Some l
  | Some _ => None
  end.

(** The hash under a key, when the key holds a hash or nothing. *)
Definition hash_of (d : Database) (key : string) : option (gmap string string) :=
  match d !! key with
  | None => Some ∅
  | Some (RHash h) => Some h
  | Some _ => None
  end.

Definition index_violation : string := "Key doesnt exist but key is in table set.".

Definition hmset_arity : string := "ERR wrong number of arguments for 'hmset' command".

(** The definitions of [defs] that a batch registers: their names are new
    to the registry and pairwise distinct. *)
Definition accepted (reg defs : list SchemaDefinition) : Prop :=
  NoDup (name <$> defs) ∧ ∀ sd, sd ∈ defs → name sd ∉ name <$> reg.

(** An object as it comes back from the store: every value rendered as a
    string. *)
Definition stored_form (o : JsObject) : JsObject := hash_object (object_fields o).

(** Every property of the object is a string. *)
Definition string_valued (o : JsObject) : Prop :=
  ∀ f v, o !! f = Some v → ∃ s, v = JStr s.

Definition connection_refused (c : NedisClient) : NedisError :=
  ConnectionError ("Could not connect to redis at "
                   +:+ template_part (JStr <$> host (config c)) +:+ ":"
                   +:+ template_part (JNum <$> port (config c))).

(** A call of the history of a table. *)
Inductive TableOp : Type :=
| Insert (data : JsObject)
| Delete (p : string).

Definition run_op (table : string) (op : TableOp) : Promise bool :=
  match op with
  | Insert data => insert table data
  | Delete p => delete table p
  end.

(** The calls one after the other, each awaited and each successful. *)
Fixpoint run_ops (table : string) (ops : list TableOp) : Promise unit :=
  match ops with
  | [] => resolve tt
  | op :: rest => run_op table op ;; run_ops table rest
  end.

(** The records of the inserts, in the order of the calls. *)
Fixpoint inserted (ops : list TableOp) : list JsObject :=
  match ops with
  | [] => []
  | Insert data :: rest => data :: inserted rest
  | Delete _ :: rest => inserted rest
  end.

(** The primary keys of the deletes. *)
Fixpoint deleted (ops : list TableOp) : list string :=
  match ops with
  | [] => []
  | Insert _ :: rest => deleted rest
  | Delete p :: rest => p :: deleted rest
  end.

(** The primary key of a record, as [insert] renders it into the key. *)
Definition pk_of (sd : SchemaDefinition) (r : JsObject) : string :=
  join_elem (r !! pk sd).

(** In the words of the specification: the records that were inserted and
    not deleted, in original insertion order. *)
Definition inserted_not_deleted (sd : SchemaDefinition) (ops : list TableOp)
  : list JsObject :=
  filter (λ r, pk_of sd r ∉ deleted ops) (inserted ops).

Definition record_key (table : string) (sd : SchemaDefinition) (r : JsObject) : string :=
  getKey table (pk_of sd r).

(** The invariant of the data model: the index lists exactly the keys of
    the live records, in order and once each, every listed key holds the
    fields of its record, and no other key of the table holds a value. *)
Record consistent (table : string) (sd : SchemaDefinition) (c : NedisClient)
    (live : list JsObject) : Prop := {
  consistent_ready : ready c;
  consistent_registered : registered c table sd;
  consistent_index : members_of (db (redis c)) table = Some (record_key table sd <$> live);
  consistent_hashes :
    ∀ r, r ∈ live → db (redis c) !! record_key table sd r = Some (RHash (object_fields r));
  consistent_no_orphan :
    ∀ p, is_Some (db (redis c) !! getKey table p) → p ∈ pk_of sd <$> live;
  consistent_nodup : NoDup (pk_of sd <$> live);
}.

(** The database the client talks to. *)
Definition database (c : NedisClient) : Database := db (redis c).

(** What the table operations have no business changing: the
    configuration, the registry and the server's reachability. *)
Definition settings (c : NedisClient) : NedisConfig * list SchemaDefinition * bool :=
  (config c, registeredSchemas c, reachable (redis c)).

(** The promise carries [P] from the client before the call to the client
    after it, whatever its outcome. *)
Definition preserves {A} (P : NedisClient → Prop) (m : Promise A) : Prop :=
  ∀ c, P c → P (m c).2.

(** The promise leaves [f] of the client as it was, whatever its outcome. *)
Definition keeps {A B} (f : NedisClient → B) (m : Promise A) : Prop :=
  ∀ c, f (m c).2 = f c.

(** The promise resolves on connected clients only. *)
Definition connects {A} (m : Promise A) : Prop :=
  ∀ c a c', m c = (Resolved a, c') → connected c' = true.

(** [P] does not look at the [connected] flag, or at the database. *)
Definition ignores_connected (P : NedisClient → Prop) : Prop :=
  ∀ c, P c → P (set_connected c).

Definition ignores_db (P : NedisClient → Prop) : Prop :=
  ∀ d c, P c → P (set_db d c).

(** A command that leaves the database as it is. *)
Definition read_only {A} (cmd : Database → reply A) : Prop :=
  ∀ d a d', cmd d = inr (a, d') → d' = d.

(** The names of the properties that every object inherits from
    [Object.prototype]. *)
Definition object_prototype_properties : list string :=
  [ "constructor"; "__defineGetter__"; "__defineSetter__"; "hasOwnProperty";
    "__lookupGetter__"; "__lookupSetter__"; "isPrototypeOf";
    "propertyIsEnumerable"; "toString"; "valueOf"; "__proto__";
    "toLocaleString" ].

(** A field name that objects do not inherit.  For such a name [obj[f]]
    is the own property of [obj] or [undefined], which is what the lookups
    of [insert] and [get] are in the model.  For an inherited name, such
    as [constructor], [obj[f]] of an object without that own property is a
    function of the prototype: it is truthy, so [get] on a table with such
    a primary-key field finds an item under every key. *)
Definition ordinary_field (f : string) : Prop := f ∉ object_prototype_properties.

(** The text has no colon in it. *)
Definition colon_free (s : string) : Prop := ∀ s1 s2, s ≠ s1 +:+ ":" +:+ s2.

(** For the operations that write, [P] has to survive the commands that
    are sent. *)
Definition survives_commands (P : NedisClient → Prop) : Prop :=
  ∀ A (cmd : Database → reply A), preserves P (send cmd).

(** * Clients, schemas and records of the tests *)

(** A schema that accepts every object, as [Joi.object()] does.  It stands
    for the Joi schemas of the tests: the properties below hold for every
    validator, and the records used here pass the schemas of the tests
    unless said otherwise. *)
Definition joi_any : JoiObject := λ _, None.

Definition server (d : Database) : Redis := {| reachable := true; db := d |}.

(** A client on a reachable server holding [d], with the schemas [l]
    registered. *)
Definition client_on (l : list SchemaDefinition) (d : Database) : NedisClient :=
  set_schemas l (createClient {| host := None; port := None |} (server d)).

Definition dogs : SchemaDefinition := {| name := "dogs"; pk := "id"; schema := joi_any |}.
Definition users : SchemaDefinition := {| name := "users"; pk := "id"; schema := joi_any |}.

Definition object (l : list (string * JsValue)) : JsObject := list_to_map l.

Definition ralph : JsObject :=
  object [("id", JStr "1"); ("name", JStr "ralph"); ("paws", JNum 4)].
Definition andy : JsObject :=
  object [("id", JStr "1"); ("name", JStr "andy"); ("age", JStr "4")].
Definition blank_id : JsObject :=
  object [("id", JStr ""); ("name", JStr "andy")].

Definition paws_two : JsObject := object [("paws", JNum 2)].
Definition ralph_text : JsObject :=
  object [("id", JStr "1"); ("name", JStr "ralph"); ("paws", JStr "4")].

Definition age_five : JsObject := object [("name", JStr "blaney"); ("age", JStr "5")].
Definition blaney : JsObject :=
  object [("id", JStr "1"); ("name", JStr "blaney"); ("age", JStr "10")].

(** The client of the test "updates a single item by pk" after its insert. *)
Definition blaney_stored : NedisClient := (insert "users" blaney (client_on [users] ∅)).2.

Definition id_two : JsObject := object [("id", JStr "2")].

Definition unreachable_client : NedisClient :=
  createClient {| host := None; port := Some 1234 |} {| reachable := false; db := ∅ |}.



Definition andrew : JsObject :=
  object [("id", JStr "1"); ("name", JStr "andrew"); ("age", JStr "13")].
Definition david : JsObject :=
  object [("id", JStr "2"); ("name", JStr "david"); ("age", JStr "10")].

(** The history of the test "deletes a single item by pk". *)
Definition delete_test : list TableOp := [Insert andrew; Insert david; Delete "1"].

Definition after_delete_test : NedisClient :=
  (run_ops "users" delete_test (client_on [users] ∅)).2.




(** * Properties *)

(** ** Keys *)

Lemma string_length_app (s1 s2 : string) :
  String.length (s1 +:+ s2) = (String.length s1 + String.length s2)%nat.
Proof. induction s1 as [|a s1 IH]; simpl; [done | by rewrite IH]. Qed.

(** A record key is never the key of its table's index. *)
Lemma getKey_ne_table (table p : string) : getKey table p ≠ table.
Proof.
  unfold getKey. intros E. apply (f_equal String.length) in E.
  rewrite string_length_app in E. simpl in E. lia.
Qed.

(** Within one table, distinct primary keys have distinct record keys. *)
Lemma getKey_inj (table p1 p2 : string) : getKey table p1 = getKey table p2 → p1 = p2.
Proof.
  unfold getKey. intros E. apply (inj (String.app table)) in E.
  by simplify_eq/=.
Qed.

(** ** The client after a call *)

Lemma set_db_id (c : NedisClient) : set_db (db (redis c)) c = c.
Proof. by destruct c as [? ? [? ?] ?]. Qed.

Lemma set_connected_id (c : NedisClient) : connected c = true → set_connected c = c.
Proof. destruct c; simpl; by intros ->. Qed.

Lemma db_set_connected (c : NedisClient) : db (redis (set_connected c)) = db (redis c).
Proof. done. Qed.

Lemma db_set_db (d : Database) (c : NedisClient) : db (redis (set_db d c)) = d.
Proof. done. Qed.

Lemma set_db_id_connected (c : NedisClient) :
  set_db (db (redis c)) (set_connected c) = set_connected c.
Proof. by destruct c as [? ? [? ?] ?]. Qed.

(** ** Step lemmas for the promise combinators *)

Lemma await_resolved {A B} (m : Promise A) (k : A → Promise B) c a c' :
  m c = (Resolved a, c') → await m k c = k a c'.
Proof. unfold await. by intros ->. Qed.

Lemma await_rejected {A B} (m : Promise A) (k : A → Promise B) c e c' :
  m c = (Rejected e, c') → await m k c = (Rejected e, c').
Proof. unfold await. by intros ->. Qed.

(** Run the first awaited promise of the goal with its equation [H]. *)
Ltac step_with H :=
  first [ rewrite (await_resolved _ _ _ _ _ H)
        | rewrite (await_rejected _ _ _ _ _ H) ];
  cbv beta.

Lemma checkConnection_ready c :
  ready c → checkConnection c = (Resolved tt, set_connected c).
Proof.
  unfold ready, checkConnection, connect, try_catch, await, redis_connect. intros Hr.
  destruct (connected c) eqn:Hc.
  - by rewrite set_connected_id.
  - by rewrite Hr.
Qed.

Lemma checkConnection_unreachable c :
  connected c = false → reachable (redis c) = false →
  checkConnection c = (Rejected (connection_refused c), c).
Proof.
  unfold checkConnection, connect, try_catch, await, redis_connect.
  by intros -> ->.
Qed.

Lemma send_ready {A} (cmd : Database → reply A) c :
  ready c →
  send cmd c = match cmd (db (redis c)) with
               | inr (a, d) => (Resolved a, set_db d c)
               | inl e => (Rejected e, c)
               end.
Proof. unfold ready, send. by intros ->. Qed.

Lemma validateSchema_registered c table sd :
  registered c table sd → validateSchema table c = (Resolved sd, c).
Proof. unfold registered, validateSchema. by intros ->. Qed.

Lemma validateSchema_unregistered c table :
  find (λ s, bool_decide (name s = table)) (registeredSchemas c) = None →
  validateSchema table c = (Rejected (UnregisteredSchemaError table), c).
Proof. unfold validateSchema. by intros ->. Qed.

Lemma ready_set_connected c : ready c → ready (set_connected c).
Proof. done. Qed.

(** ** What each operation computes on a reachable server *)

Lemma cmd_lrange_all_members d table :
  cmd_lrange_all table d = match members_of d table with
                           | Some l => inr (l, d)
                           | None => inl wrongtype
                           end.
Proof. unfold cmd_lrange_all, members_of. by destruct (d !! table) as [[]|]. Qed.

Lemma cmd_hgetall_hash d key :
  cmd_hgetall key d = match hash_of d key with
                      | Some h => inr (h, d)
                      | None => inl wrongtype
                      end.
Proof. unfold cmd_hgetall, hash_of. by destruct (d !! key) as [[]|]. Qed.

Lemma get_eq c table p sd :
  ready c → registered c table sd →
  get table p c =
    match hash_of (db (redis c)) (getKey table p) with
    | None => (Rejected wrongtype, set_connected c)
    | Some h =>
        if truthy (hash_object h !! pk sd)
        then (Resolved (hash_object h), set_connected c)
        else (Rejected (ItemNotFoundError p table), set_connected c)
    end.
Proof.
  intros Hr Hs. unfold get.
  step_with (checkConnection_ready c Hr).
  step_with (validateSchema_registered (set_connected c) _ _ Hs).
  unfold await. rewrite send_ready by done.
  rewrite cmd_hgetall_hash. fold (getKey table p).
  destruct (hash_of _ _) as [h|]; [|done].
  rewrite set_db_id. by destruct (truthy _).
Qed.

Lemma cmd_rpush_members d table value l :
  members_of d table = Some l →
  cmd_rpush table value d = inr (tt, <[table := RList (l ++ [value])]> d).
Proof.
  unfold cmd_rpush, members_of.
  destruct (d !! table) as [[]|]; intros; by simplify_eq.
Qed.

Lemma addToIndex_eq c table key :
  ready c →
  addToIndex table key c =
    match members_of (db (redis c)) table with
    | None => (Rejected wrongtype, set_connected c)
    | Some l =>
        if bool_decide (key ∈ l)
        then (Rejected (DatabaseInsertError key index_violation), set_connected c)
        else (Resolved true,
              set_db (<[table := RList (l ++ [key])]> (db (redis c))) (set_connected c))
    end.
Proof.
  intros Hr. unfold addToIndex, lmembers.
  step_with (checkConnection_ready c Hr).
  unfold await at 1. rewrite send_ready by done.
  rewrite cmd_lrange_all_members.
  destruct (members_of _ _) as [l|] eqn:Hm; [|done].
  rewrite set_db_id, db_set_connected in *. destruct (bool_decide (key ∈ l)); [done|].
  unfold await. rewrite send_ready by done.
  by rewrite (cmd_rpush_members _ _ _ _ Hm).
Qed.

Lemma insert_eq c table data sd :
  ready c → registered c table sd →
  insert table data c =
    match schema sd data with
    | Some msg => (Rejected (ValidationError msg), set_connected c)
    | None =>
        let key := getKey table (join_elem (data !! pk sd)) in
        if bool_decide (is_Some (db (redis c) !! key))
        then (Rejected (ItemAlreadyExistsError key), set_connected c)
        else
          match members_of (db (redis c)) table with
          | None => (Rejected (DatabaseInsertError key (message wrongtype)), set_connected c)
          | Some l =>
              if bool_decide (key ∈ l)
              then (Rejected (DatabaseInsertError key index_violation), set_connected c)
              else
                let d := <[table := RList (l ++ [key])]> (db (redis c)) in
                if decide (object_fields data = ∅)
                then (Rejected (DatabaseInsertError key hmset_arity),
                      set_db d (set_connected c))
                else (Resolved true,
                      set_db (<[key := RHash (object_fields data)]> d) (set_connected c))
          end
    end.
Proof.
  intros Hr Hs. unfold insert.
  step_with (checkConnection_ready c Hr).
  step_with (validateSchema_registered (set_connected c) _ _ Hs).
  unfold validateData. destruct (schema sd data) as [msg|]; [reflexivity|].
  unfold await at 1, resolve. cbv zeta.
  set (key := getKey table (join_elem (data !! pk sd))).
  unfold await at 1. rewrite send_ready by done.
  unfold cmd_exists. rewrite set_db_id, db_set_connected.
  destruct (bool_decide (is_Some (db (redis c) !! key))) eqn:Hex; [reflexivity|].
  apply bool_decide_eq_false_1 in Hex.
  assert (db (redis c) !! key = None) as Hnone.
  { destruct (db (redis c) !! key); [exfalso; eauto | done]. }
  unfold try_catch, await at 1.
  rewrite (addToIndex_eq _ _ _ (ready_set_connected c Hr)), db_set_connected.
  destruct (members_of _ _) as [l|]; [|reflexivity].
  destruct (bool_decide (key ∈ l)); [reflexivity|].
  unfold await. rewrite send_ready by done.
  unfold cmd_hmset. rewrite db_set_db.
  destruct (decide (object_fields data = ∅)); [reflexivity|].
  rewrite lookup_insert_ne by (symmetry; apply getKey_ne_table).
  rewrite Hnone. reflexivity.
Qed.

(** Writing back a hash merged with new properties replaces it. *)
Lemma object_fields_assign_over (h : gmap string string) (data : JsObject) :
  object_fields (object_assign (hash_object h) data) ∪ h
  = object_fields (object_assign (hash_object h) data).
Proof.
  unfold object_fields, object_assign, hash_object. apply map_eq. intros i.
  rewrite lookup_union, !lookup_fmap, lookup_union, lookup_fmap.
  destruct (data !! i), (h !! i); done.
Qed.

Lemma truthy_hash_lookup (h : gmap string string) (f : string) :
  truthy (hash_object h !! f) = true → ∃ v, h !! f = Some v ∧ v ≠ "".
Proof.
  unfold hash_object. rewrite lookup_fmap.
  destruct (h !! f) as [v|]; simpl; [|done].
  intros H. exists v. split; [done|]. intros ->. done.
Qed.

Lemma hash_of_truthy d key h f :
  hash_of d key = Some h → truthy (hash_object h !! f) = true →
  d !! key = Some (RHash h).
Proof.
  unfold hash_of. intros Hh Ht. apply truthy_hash_lookup in Ht as (v & Hv & _).
  destruct (d !! key) as [[]|]; by simplify_eq.
Qed.

Lemma update_eq c table p data sd :
  ready c → registered c table sd →
  update table p data c =
    match hash_of (db (redis c)) (getKey table p) with
    | None => (Rejected wrongtype, set_connected c)
    | Some h =>
        if truthy (hash_object h !! pk sd)
        then
          let updatedObject := object_assign (hash_object h) data in
          (Resolved updatedObject,
           set_db (<[getKey table p := RHash (object_fields updatedObject)]> (db (redis c)))
                  (set_connected c))
        else (Rejected (ItemNotFoundError p table), set_connected c)
    end.
Proof.
  intros Hr Hs. unfold update.
  step_with (checkConnection_ready c Hr).
  unfold await at 1.
  rewrite (get_eq (set_connected c) table p sd) by done.
  rewrite db_set_connected.
  destruct (hash_of _ _) as [h|] eqn:Hh; [|reflexivity].
  destruct (truthy _) eqn:Ht; [|reflexivity].
  change (set_connected (set_connected c)) with (set_connected c).
  unfold await. rewrite send_ready by done. rewrite db_set_connected.
  unfold cmd_hmset.
  rewrite (hash_of_truthy _ _ _ _ Hh Ht).
  destruct (decide _) as [E|_].
  - exfalso. apply truthy_hash_lookup in Ht as (v & Hv & _).
    apply (f_equal (λ m, m !! pk sd)) in E. revert E.
    unfold object_fields, object_assign, hash_object.
    rewrite lookup_fmap, lookup_union, lookup_fmap, Hv, lookup_empty.
    by destruct (data !! pk sd).
  - rewrite object_fields_assign_over. reflexivity.
Qed.

Lemma cmd_lrem_first_members d table value l :
  members_of d table = Some l →
  cmd_lrem_first table value d
  = inr (tt, partial_alter (λ _, store_list (remove_first value l)) table d).
Proof.
  unfold cmd_lrem_first, members_of.
  destruct (d !! table) as [[]|] eqn:E; intros; simplify_eq; [done|].
  f_equal. f_equal. apply map_eq. intros i.
  destruct (decide (table = i)) as [->|].
  - by rewrite lookup_partial_alter_eq, E.
  - by rewrite lookup_partial_alter_ne.
Qed.

Lemma delete_eq c table p sd :
  ready c → registered c table sd →
  delete table p c =
    match hash_of (db (redis c)) (getKey table p) with
    | None => (Rejected wrongtype, set_connected c)
    | Some h =>
        if truthy (hash_object h !! pk sd)
        then
          match members_of (db (redis c)) table with
          | None => (Rejected wrongtype, set_connected c)
          | Some l =>
              (Resolved true,
               set_db (base.delete (getKey table p)
                         (partial_alter (λ _, store_list (remove_first (getKey table p) l))
                                        table (db (redis c))))
                      (set_connected c))
          end
        else (Rejected (ItemNotFoundError p table), set_connected c)
    end.
Proof.
  intros Hr Hs. unfold delete.
  step_with (checkConnection_ready c Hr).
  unfold await at 1.
  rewrite (get_eq (set_connected c) table p sd) by done.
  rewrite db_set_connected.
  destruct (hash_of _ _) as [h|] eqn:Hh; [|reflexivity].
  destruct (truthy _) eqn:Ht; [|reflexivity].
  change (set_connected (set_connected c)) with (set_connected c).
  unfold await at 1. rewrite send_ready by done. rewrite db_set_connected.
  destruct (members_of _ _) as [l|] eqn:Hm.
  - rewrite (cmd_lrem_first_members _ _ _ _ Hm).
    unfold await. rewrite send_ready by done. reflexivity.
  - unfold cmd_lrem_first. unfold members_of in Hm.
    destruct (db (redis c) !! table) as [[]|]; simplify_eq; reflexivity.
Qed.

Lemma hgetall_each_eq c members :
  ready c →
  hgetall_each members c =
    match mapM (hash_of (db (redis c))) members with
    | Some hs => (Resolved (hash_object <$> hs), c)
    | None => (Rejected wrongtype, c)
    end.
Proof.
  intros Hr. induction members as [|key rest IH]; [reflexivity|].
  simpl hgetall_each. unfold await at 1. rewrite send_ready by done.
  rewrite cmd_hgetall_hash. simpl mapM.
  destruct (hash_of _ key) as [h|]; [|reflexivity].
  rewrite set_db_id. unfold await. rewrite IH. simpl.
  destruct (mapM _ rest); reflexivity.
Qed.

Lemma getAll_eq c table sd :
  ready c → registered c table sd →
  getAll table c =
    match members_of (db (redis c)) table with
    | None => (Rejected wrongtype, set_connected c)
    | Some l =>
        match mapM (hash_of (db (redis c))) l with
        | Some hs => (Resolved (hash_object <$> hs), set_connected c)
        | None => (Rejected wrongtype, set_connected c)
        end
    end.
Proof.
  intros Hr Hs. unfold getAll, lmembers.
  step_with (checkConnection_ready c Hr).
  step_with (validateSchema_registered (set_connected c) _ _ Hs).
  unfold await. rewrite send_ready by done.
  rewrite cmd_lrange_all_members, db_set_connected.
  destruct (members_of _ _) as [l|]; [|reflexivity].
  rewrite set_db_id_connected. rewrite hgetall_each_eq by done.
  by rewrite db_set_connected.
Qed.

(** ** Schema registry *)

Lemma find_name_None (n : string) (l : list SchemaDefinition) :
  find (λ s, bool_decide (name s = n)) l = None ↔ n ∉ name <$> l.
Proof.
  induction l as [|s l IH]; simpl.
  - split; [intros _; apply not_elem_of_nil | done].
  - rewrite not_elem_of_cons. case_bool_decide as E.
    + split; [done | intros [? _]; congruence].
    + rewrite IH. split; [intros ?; split; [congruence | done] | by intros [_ ?]].
Qed.

Lemma find_name_Some (n : string) (l : list SchemaDefinition) :
  n ∈ name <$> l → ∃ s, find (λ s, bool_decide (name s = n)) l = Some s.
Proof.
  intros Hin. destruct (find _ l) as [s|] eqn:E; [by exists s|].
  by apply find_name_None in E.
Qed.

Lemma set_schemas_id (c : NedisClient) : set_schemas (registeredSchemas c) c = c.
Proof. by destruct c. Qed.

Lemma registerSchema_fresh (sd : SchemaDefinition) c :
  name sd ∉ name <$> registeredSchemas c →
  registerSchema sd c = (Resolved tt, set_schemas (registeredSchemas c ++ [sd]) c).
Proof. intros H. apply find_name_None in H. unfold registerSchema. by rewrite H. Qed.

Lemma registerSchema_duplicate (sd : SchemaDefinition) c :
  name sd ∈ name <$> registeredSchemas c →
  registerSchema sd c = (Rejected (DuplicateSchemaError (name sd)), c).
Proof.
  intros H. apply find_name_Some in H as [s H]. unfold registerSchema. by rewrite H.
Qed.

Lemma accepted_nil reg : accepted reg [].
Proof. split; [constructor | intros ? H; by apply elem_of_nil in H]. Qed.

Lemma accepted_snoc reg pre sd :
  accepted reg pre → name sd ∉ name <$> (reg ++ pre) → accepted reg (pre ++ [sd]).
Proof.
  intros [Hnd Hreg] Hsd. rewrite fmap_app, elem_of_app in Hsd. split.
  - rewrite fmap_app. apply NoDup_app. split; [done|]. split.
    + intros x Hx Hx'. apply list_elem_of_singleton in Hx' as ->. tauto.
    + apply NoDup_singleton.
  - intros x Hx. apply elem_of_app in Hx as [Hx|Hx]; [by apply Hreg|].
    apply list_elem_of_singleton in Hx as ->. tauto.
Qed.

Lemma registerSchemas_cons sd rest c :
  registerSchemas (sd :: rest) c
  = match registerSchema sd c with
    | (Resolved _, c') => registerSchemas rest c'
    | (Rejected e, c') => (Rejected e, c')
    end.
Proof. reflexivity. Qed.

(** A batch run from a registry that already took [pre]: either all of
    [rest] is taken too, or the run stops at the first definition whose
    name is registered, keeping what it took before. *)
Lemma registerSchemas_from reg pre rest c :
  accepted reg pre →
  (accepted reg (pre ++ rest) ∧
   registerSchemas rest (set_schemas (reg ++ pre) c)
   = (Resolved tt, set_schemas (reg ++ pre ++ rest) c))
  ∨ (∃ mid sd post,
       rest = mid ++ sd :: post ∧ accepted reg (pre ++ mid) ∧
       name sd ∈ name <$> (reg ++ pre ++ mid) ∧
       registerSchemas rest (set_schemas (reg ++ pre) c)
       = (Rejected (DuplicateSchemaError (name sd)), set_schemas (reg ++ pre ++ mid) c)).
Proof.
  revert pre. induction rest as [|sd rest IH]; intros pre Hacc.
  - left. rewrite !app_nil_r. by split.
  - destruct (decide (name sd ∈ name <$> (reg ++ pre))) as [Hin|Hout].
    + right. exists [], sd, rest. rewrite !app_nil_r.
      split; [done|]. split; [done|]. split; [done|].
      rewrite registerSchemas_cons. by rewrite registerSchema_duplicate.
    + pose proof (accepted_snoc _ _ _ Hacc Hout) as Hacc'.
      assert (registerSchemas (sd :: rest) (set_schemas (reg ++ pre) c)
              = registerSchemas rest (set_schemas (reg ++ pre ++ [sd]) c)) as ->.
      { rewrite registerSchemas_cons, registerSchema_fresh by done.
        simpl. by rewrite <- app_assoc. }
      destruct (IH (pre ++ [sd]) Hacc') as [[Ha E]|(mid & d & post & -> & Ha & Hd & E)].
      * left. rewrite <- !app_assoc in *.
        change ([sd] ++ rest) with (sd :: rest) in *. by split.
      * right. exists (sd :: mid), d, post. rewrite <- !app_assoc in *.
        change ([sd] ++ mid) with (sd :: mid) in *. by split_and!.
Qed.

(** C6: a batch registration registers its definitions in order and stops
    at the first one whose table name is already registered, rejecting
    with the [DuplicateSchemaError] of that name; the definitions before it
    stay registered.  A table name that is registered is refused again,
    by a single registration and by a batch alike. *)
Theorem registerSchemas_stops_at_first_duplicate :
  ∀ (defs : list SchemaDefinition) (c : NedisClient),
    let reg := registeredSchemas c in
    ((accepted reg defs ∧
      registerSchemas defs c = (Resolved tt, set_schemas (reg ++ defs) c))
     ∨ (∃ pre sd post,
          defs = pre ++ sd :: post ∧ accepted reg pre ∧
          name sd ∈ name <$> (reg ++ pre) ∧
          registerSchemas pre c = (Resolved tt, set_schemas (reg ++ pre) c) ∧
          registerSchema sd (set_schemas (reg ++ pre) c)
          = (Rejected (DuplicateSchemaError (name sd)), set_schemas (reg ++ pre) c) ∧
          registerSchemas defs c
          = (Rejected (DuplicateSchemaError (name sd)), set_schemas (reg ++ pre) c)))
    ∧ (∀ sd, name sd ∈ name <$> reg →
         registerSchema sd c = (Rejected (DuplicateSchemaError (name sd)), c)
         ∧ (sd ∈ defs →
            ∃ n c', registerSchemas defs c = (Rejected (DuplicateSchemaError n), c')
                    ∧ n ∈ name <$> defs))
    ∧ (∀ sd c', registerSchema sd c = (Resolved tt, c') →
         registeredSchemas c' = reg ++ [sd]
         ∧ registerSchema sd c' = (Rejected (DuplicateSchemaError (name sd)), c')).
Proof.
  intros defs c reg.
  assert (∀ l, registerSchemas l c = registerSchemas l (set_schemas (reg ++ []) c)) as E0.
  { intros l. rewrite app_nil_r. unfold reg. by rewrite set_schemas_id. }
  pose proof (registerSchemas_from reg [] defs c (accepted_nil reg)) as Hrun.
  simpl in Hrun. rewrite <- E0 in Hrun.
  split; [|split].
  - destruct Hrun as [[Ha E]|(pre & sd & post & -> & Ha & Hd & E)]; [by left|right].
    exists pre, sd, post.
    refine (conj eq_refl (conj Ha (conj Hd (conj _ (conj _ E))))).
    + destruct (registerSchemas_from reg [] pre c (accepted_nil reg))
        as [[_ E']|(mid & d & post' & -> & [Hnd Hreg] & Hd' & _)].
      * simpl in E'. by rewrite <- E0 in E'.
      * exfalso. destruct Ha as [Hnd' Hreg']. simpl in *.
        rewrite fmap_app, elem_of_app in Hd'. destruct Hd' as [Hd'|Hd'].
        -- apply (Hreg' d); [|done]. apply elem_of_app. right. by left.
        -- rewrite fmap_app in Hnd'. apply NoDup_app in Hnd' as (_ & Hdis & _).
           apply (Hdis _ Hd'). simpl. by left.
    + by apply registerSchema_duplicate.
  - intros sd Hin. split; [by apply registerSchema_duplicate|]. intros Hsd.
    destruct Hrun as [[[_ Hreg] _]|(pre & d & post & -> & _ & _ & E)].
    + exfalso. by apply (Hreg sd).
    + exists (name d), (set_schemas (reg ++ pre) c). split; [done|].
      rewrite fmap_app, elem_of_app. right. simpl. by left.
  - intros sd c' H. unfold registerSchema in H.
    destruct (find _ _) eqn:Ef; [done|]. simplify_eq. split; [done|].
    apply registerSchema_duplicate. simpl. rewrite fmap_app, elem_of_app.
    right. simpl. by left.
Qed.

(** ** Successful calls, read backwards *)

Lemma insert_resolved_inv c table sd data b c1 :
  ready c → registered c table sd →
  insert table data c = (Resolved b, c1) →
  let key := getKey table (join_elem (data !! pk sd)) in
  b = true ∧ schema sd data = None ∧ db (redis c) !! key = None ∧
  object_fields data ≠ ∅ ∧
  ∃ l, members_of (db (redis c)) table = Some l ∧ (key ∉ l) ∧
       c1 = set_db (<[key := RHash (object_fields data)]>
                      (<[table := RList (l ++ [key])]> (db (redis c))))
                   (set_connected c).
Proof.
  intros Hr Hs H key. rewrite (insert_eq c table data sd Hr Hs) in H.
  destruct (schema sd data); [done|]. cbv zeta in H. fold key in H.
  case_bool_decide as Hex; [done|].
  destruct (members_of _ _) as [l|]; [|done].
  case_bool_decide as Hin; [done|].
  destruct (decide _) as [|Hne]; [done|]. simplify_eq.
  split_and!; try done.
  - destruct (db (redis c) !! key) eqn:E; [|done]. exfalso. apply Hex. eauto.
  - by exists l.
Qed.

Lemma insert_resolved c table sd data l :
  ready c → registered c table sd →
  let key := getKey table (join_elem (data !! pk sd)) in
  schema sd data = None → db (redis c) !! key = None →
  object_fields data ≠ ∅ →
  members_of (db (redis c)) table = Some l → key ∉ l →
  insert table data c
  = (Resolved true,
     set_db (<[key := RHash (object_fields data)]>
               (<[table := RList (l ++ [key])]> (db (redis c))))
            (set_connected c)).
Proof.
  intros Hr Hs key Hv Hex Hne Hm Hin. rewrite (insert_eq c table data sd Hr Hs).
  rewrite Hv. cbv zeta. fold key. rewrite Hex, Hm.
  rewrite bool_decide_eq_false_2 by (by intros [? ?]).
  rewrite bool_decide_eq_false_2 by done.
  by destruct (decide _).
Qed.

Lemma object_fields_empty (o : JsObject) : object_fields o = ∅ ↔ o = ∅.
Proof. unfold object_fields. apply fmap_empty_iff. Qed.

(** ** Index-add *)



(** ** Round trip *)

Lemma stored_form_lookup (o : JsObject) (f : string) :
  stored_form o !! f = JStr ∘ js_to_string <$> o !! f.
Proof.
  unfold stored_form, hash_object, object_fields. rewrite !lookup_fmap.
  by destruct (o !! f).
Qed.

Lemma stored_form_string_valued (o : JsObject) : stored_form o = o ↔ string_valued o.
Proof.
  split.
  - intros E f v Hv. apply (f_equal (.!! f)) in E.
    rewrite stored_form_lookup, Hv in E. simpl in E. eexists. by simplify_eq.
  - intros Hs. apply map_eq. intros f. rewrite stored_form_lookup.
    destruct (o !! f) as [v|] eqn:Hv; [|done].
    destruct (Hs f v Hv) as [s ->]. done.
Qed.

Lemma hash_of_insert_eq (d : Database) key h : hash_of (<[key := RHash h]> d) key = Some h.
Proof. unfold hash_of. by rewrite lookup_insert_eq. Qed.

Lemma members_of_insert_ne (d : Database) key key' v :
  key ≠ key' → members_of (<[key := v]> d) key' = members_of d key'.
Proof. intros. unfold members_of. by rewrite lookup_insert_ne. Qed.

Lemma members_of_insert_eq (d : Database) key l :
  members_of (<[key := RList l]> d) key = Some l.
Proof. unfold members_of. by rewrite lookup_insert_eq. Qed.

(** C1, as stated, fails in three ways.  A record with a number comes back
    with the number as a string.  A key that does not exist but is listed
    in the index (the state of the test "doesnt create an item if they key
    exists in the table set") makes [insert] reject.  A record whose
    primary key is the empty string is inserted, and [get] then reports
    it missing. *)
Lemma round_trip_counterexample :
  (schema dogs ralph = None
   ∧ db (redis (client_on [dogs] ∅)) !! getKey "dogs" "1" = None
   ∧ ∃ c1 o, insert "dogs" ralph (client_on [dogs] ∅) = (Resolved true, c1)
             ∧ get "dogs" "1" c1 = (Resolved o, c1)
             ∧ o ≠ ralph)
  ∧ (let d : Database := {[ "users" := RList ["users:1"] ]} in
     schema users andy = None
     ∧ d !! getKey "users" "1" = None
     ∧ insert "users" andy (client_on [users] d)
       = (Rejected (DatabaseInsertError "users:1" index_violation),
          set_connected (client_on [users] d)))
  ∧ (schema users blank_id = None
     ∧ db (redis (client_on [users] ∅)) !! getKey "users" "" = None
     ∧ ∃ c1, insert "users" blank_id (client_on [users] ∅) = (Resolved true, c1)
             ∧ get "users" "" c1 = (Rejected (ItemNotFoundError "" "users"), c1)).
Proof.
  split; [|split].
  - split; [done|]. split; [done|].
    eexists _, _. split; [vm_compute; reflexivity|].
    split; [vm_compute; reflexivity|].
    intros E. apply (f_equal (.!! "paws")) in E. vm_compute in E. discriminate.
  - cbv zeta. split; [done|]. split; [done|]. vm_compute. reflexivity.
  - split; [done|]. split; [done|]. eexists. split; vm_compute; reflexivity.
Qed.

(** C1 (amended): a record that passes the validator, whose primary key
    renders to a non-empty string and whose key is neither in the store
    nor listed in the table's index, is inserted with result [true]; the
    [get] that follows resolves with the record as stored, every value
    rendered as a string, which is the record itself exactly when all its
    values are strings. *)
Theorem insert_then_get_round_trip :
  ∀ (c : NedisClient) (table : string) (sd : SchemaDefinition) (r : JsObject)
    (p : string) (l : list string),
    ready c → registered c table sd →
    schema sd r = None →
    join_elem (r !! pk sd) = p → p ≠ "" →
    db (redis c) !! getKey table p = None →
    members_of (db (redis c)) table = Some l → getKey table p ∉ l →
    ∃ c1, insert table r c = (Resolved true, c1)
          ∧ get table p c1 = (Resolved (stored_form r), c1)
          ∧ (stored_form r = r ↔ string_valued r).
Proof.
  intros c table sd r p l Hr Hs Hv Hp Hne Hex Hm Hin.
  assert (object_fields r ≠ ∅) as Hfields.
  { rewrite object_fields_empty. intros ->. rewrite lookup_empty in Hp. by simplify_eq/=. }
  eexists. split; [|split].
  - apply (insert_resolved c table sd r l); by rewrite ?Hp.
  - rewrite Hp. rewrite (get_eq _ table p sd) by done.
    rewrite db_set_db, hash_of_insert_eq. fold (stored_form r).
    rewrite stored_form_lookup. destruct (r !! pk sd) as [v|]; [|by simplify_eq/=].
    simpl in *. subst p. rewrite bool_decide_eq_false_2 by done. reflexivity.
  - apply stored_form_string_valued.
Qed.

Lemma insert_then_get_round_trip_witness :
  ∃ c1, insert "users" andy (client_on [users] ∅) = (Resolved true, c1)
        ∧ get "users" "1" c1 = (Resolved (stored_form andy), c1)
        ∧ (stored_form andy = andy ↔ string_valued andy).
Proof.
  apply (insert_then_get_round_trip (client_on [users] ∅) "users" users andy "1" []);
    try reflexivity; try discriminate.
  apply not_elem_of_nil.
Defined.

(** ** Second insert of a key *)



(** ** Update *)

Lemma get_resolved_inv c table sd p item c0 :
  ready c → registered c table sd →
  get table p c = (Resolved item, c0) →
  ∃ h, db (redis c) !! getKey table p = Some (RHash h) ∧ item = hash_object h
       ∧ truthy (hash_object h !! pk sd) = true ∧ c0 = set_connected c.
Proof.
  intros Hr Hs H. rewrite (get_eq c table p sd Hr Hs) in H.
  destruct (hash_of _ _) as [h|] eqn:Hh; [|done].
  destruct (truthy _) eqn:Ht; [|done]. simplify_eq.
  exists h. split_and!; try done. by apply (hash_of_truthy _ _ _ (pk sd)).
Qed.

Lemma hash_of_Some_RHash d key h : d !! key = Some (RHash h) → hash_of d key = Some h.
Proof. unfold hash_of. by intros ->. Qed.

Lemma object_assign_lookup (target source : JsObject) (f : string) :
  object_assign target source !! f
  = match source !! f with
    | Some v => Some v
    | None => target !! f
    end.
Proof. unfold object_assign. rewrite lookup_union. by destruct (source !! f), (target !! f). Qed.

Lemma string_valued_hash_object (h : gmap string string) : string_valued (hash_object h).
Proof.
  intros f v. unfold hash_object. rewrite lookup_fmap.
  destruct (h !! f); intros; simplify_eq/=. eauto.
Qed.

Lemma string_valued_assign (target source : JsObject) :
  string_valued target → string_valued source → string_valued (object_assign target source).
Proof.
  intros Ht Hs f v. rewrite object_assign_lookup.
  destruct (source !! f) eqn:E; intros; simplify_eq; eauto.
Qed.

(** C4, as stated, fails on a number: [update] resolves with the number,
    the hash holds its decimal string. *)
Lemma update_result_counterexample :
  ∃ c1 c2 o h,
    insert "dogs" ralph_text (client_on [dogs] ∅) = (Resolved true, c1)
    ∧ update "dogs" "1" paws_two c1 = (Resolved o, c2)
    ∧ db (redis c2) !! getKey "dogs" "1" = Some (RHash h)
    ∧ o !! "paws" = Some (JNum 2)
    ∧ hash_object h !! "paws" = Some (JStr "2")
    ∧ o ≠ hash_object h.
Proof.
  eexists _, _, _, _. split_and!; try (vm_compute; reflexivity).
  intros E. apply (f_equal (.!! "paws")) in E. vm_compute in E. discriminate.
Qed.

(** C4 (amended): [update] of an existing record resolves with the stored
    fields overlaid by [partialData] (its values win, the other fields are
    kept) and overwrites the hash with that mapping, every value rendered
    as a string; the result is the newly stored hash read back exactly when
    it has strings only, as it has when [partialData] has.  The validator is
    not consulted, and no key other than the record's changes: the index
    is left as it was. *)
Theorem update_merges_over_stored :
  ∀ (c c0 : NedisClient) (table : string) (sd : SchemaDefinition) (p : string)
    (item partialData : JsObject),
    ready c → registered c table sd →
    get table p c = (Resolved item, c0) →
    ∃ c2 h',
      update table p partialData c = (Resolved (object_assign item partialData), c2)
      ∧ (∀ f, object_assign item partialData !! f
               = match partialData !! f with
                 | Some v => Some v
                 | None => item !! f
                 end)
      ∧ db (redis c2) !! getKey table p = Some (RHash h')
      ∧ hash_object h' = stored_form (object_assign item partialData)
      ∧ (hash_object h' = object_assign item partialData
         ↔ string_valued (object_assign item partialData))
      ∧ (string_valued partialData → hash_object h' = object_assign item partialData)
      ∧ (∀ k, k ≠ getKey table p → db (redis c2) !! k = db (redis c) !! k)
      ∧ registeredSchemas c2 = registeredSchemas c.
Proof.
  intros c c0 table sd p item data Hr Hs Hget.
  apply (get_resolved_inv c table sd p item c0 Hr Hs) in Hget as (h & Hh & -> & Ht & ->).
  eexists _, _. split_and!.
  - rewrite (update_eq c table p data sd Hr Hs).
    rewrite (hash_of_Some_RHash _ _ _ Hh), Ht. reflexivity.
  - intros f. apply object_assign_lookup.
  - rewrite db_set_db. apply lookup_insert_eq.
  - reflexivity.
  - apply stored_form_string_valued.
  - intros Hd. apply stored_form_string_valued, string_valued_assign; [|done].
    apply string_valued_hash_object.
  - intros k Hk. rewrite db_set_db. by rewrite lookup_insert_ne.
  - reflexivity.
Qed.

Lemma update_merges_over_stored_witness :
  get "users" "1" blaney_stored = (Resolved blaney, blaney_stored)
  ∧ ∃ c2, update "users" "1" age_five blaney_stored
          = (Resolved (object_assign blaney age_five), c2)
          ∧ object_assign blaney age_five
            = object [("id", JStr "1"); ("name", JStr "blaney"); ("age", JStr "5")].
Proof.
  assert (get "users" "1" blaney_stored = (Resolved blaney, blaney_stored)) as Hget
    by (vm_compute; reflexivity).
  split; [exact Hget|].
  destruct (update_merges_over_stored blaney_stored blaney_stored "users" users "1"
              blaney age_five eq_refl eq_refl Hget) as (c2 & h' & E & _).
  exists c2. split; [exact E | vm_compute; reflexivity].
Defined.

(** ** Update of the primary-key field *)

(** C5: the test "should throw a Validation error when trying to update
    the pk" names the intended behaviour, and [update] does not have it.
    With the record of key [users:1] stored, [update('users', '1', {id:
    '2'})] resolves, and the hash under [users:1] then holds [id = 2]. *)
Theorem update_overwrites_primary_key_field :
  get "users" "1" blaney_stored = (Resolved blaney, blaney_stored)
  ∧ ∃ c2 h,
      update "users" "1" id_two blaney_stored
      = (Resolved (object [("id", JStr "2"); ("name", JStr "blaney"); ("age", JStr "10")]), c2)
      ∧ db (redis c2) !! getKey "users" "1" = Some (RHash h)
      ∧ h !! pk users = Some "2"
      ∧ members_of (db (redis c2)) "users" = Some [getKey "users" "1"]
      ∧ db (redis c2) !! getKey "users" "2" = None.
Proof.
  split; [vm_compute; reflexivity|].
  eexists _, _. split_and!; vm_compute; reflexivity.
Qed.

(** ** Connection *)

(** X2: the five table operations start with [checkConnection]: on a client
    that is not connected and cannot connect they reject with the
    [ConnectionError] of the configured host and port and leave the client
    as it was. *)
Lemma operations_need_connection c table p data :
  connected c = false → reachable (redis c) = false →
  insert table data c = (Rejected (connection_refused c), c)
  ∧ get table p c = (Rejected (connection_refused c), c)
  ∧ getAll table c = (Rejected (connection_refused c), c)
  ∧ update table p data c = (Rejected (connection_refused c), c)
  ∧ delete table p c = (Rejected (connection_refused c), c).
Proof.
  intros Hc Hr. pose proof (checkConnection_unreachable c Hc Hr) as E.
  unfold insert, get, getAll, update, delete.
  split_and!; by step_with E.
Qed.

(** X1: a table that is not registered is refused by name, before the
    store is touched. *)
Lemma operations_need_schema c table p data :
  ready c →
  find (λ s, bool_decide (name s = table)) (registeredSchemas c) = None →
  insert table data c = (Rejected (UnregisteredSchemaError table), set_connected c)
  ∧ get table p c = (Rejected (UnregisteredSchemaError table), set_connected c)
  ∧ getAll table c = (Rejected (UnregisteredSchemaError table), set_connected c)
  ∧ update table p data c = (Rejected (UnregisteredSchemaError table), set_connected c)
  ∧ delete table p c = (Rejected (UnregisteredSchemaError table), set_connected c).
Proof.
  intros Hr Hs. pose proof (checkConnection_ready c Hr) as E.
  pose proof (validateSchema_unregistered (set_connected c) table Hs) as E'.
  assert (get table p (set_connected c)
          = (Rejected (UnregisteredSchemaError table), set_connected c)) as Hget.
  { unfold get. step_with (checkConnection_ready _ (ready_set_connected c Hr)).
    change (set_connected (set_connected c)) with (set_connected c).
    by step_with E'. }
  unfold insert, getAll, update, delete. split_and!.
  - step_with E. by step_with E'.
  - unfold get. step_with E. by step_with E'.
  - step_with E. by step_with E'.
  - step_with E. by step_with Hget.
  - step_with E. by step_with Hget.
Qed.

(** Once connected, the check does not connect again. *)
Lemma checkConnection_once c : connected c = true → checkConnection c = (Resolved tt, c).
Proof. unfold checkConnection. by intros ->. Qed.

(** C8: [lmembers] is public and sends its command without
    [checkConnection].  On a new client it reads the index of a reachable
    server and leaves [connected] false; on the client of the test "handles
    no connection", where [insert] rejects with the [ConnectionError] of
    [localhost:1234], it rejects with the error of the redis client. *)
Theorem lmembers_skips_checkConnection :
  (∀ c table, lmembers table c = send (cmd_lrange_all table) c)
  ∧ (let c := createClient {| host := None; port := None |}
                (server {[ "users" := RList ["users:1"] ]}) in
     connected c = false
     ∧ ∃ c', lmembers "users" c = (Resolved ["users:1"], c') ∧ connected c' = false)
  ∧ insert "users" andy unreachable_client
    = (Rejected (ConnectionError "Could not connect to redis at localhost:1234"),
       unreachable_client)
  ∧ lmembers "users" unreachable_client
    = (Rejected (ReplyError "Connection is closed."), unreachable_client).
Proof.
  split_and!; try done.
  cbv zeta. split; [done|]. eexists. split; vm_compute; reflexivity.
Qed.

(** ** A key listed in the index without a hash *)

(** C9, as stated, fails for [getAll]: with [users:1] listed and no hash
    under it, [getAll] resolves with one empty object and no error. *)
Lemma getAll_dangling_counterexample :
  getAll "users" (client_on [users] {[ "users" := RList ["users:1"] ]})
  = (Resolved [∅], set_connected (client_on [users] {[ "users" := RList ["users:1"] ]})).
Proof. vm_compute. reflexivity. Qed.

Lemma hash_of_None d key : d !! key = None → hash_of d key = Some ∅.
Proof. unfold hash_of. by intros ->. Qed.

Lemma mapM_hash_of_lookup (d : Database) (l : list string) hs i key :
  mapM (hash_of d) l = Some hs → l !! i = Some key →
  hs !! i = hash_of d key.
Proof.
  intros Hm Hl. apply mapM_Some_1 in Hm.
  destruct (Forall2_lookup_l _ _ _ _ _ Hm Hl) as (h & Hh & E). by rewrite Hh, E.
Qed.

(** C9 (amended): on a reachable server, for a registered table whose
    primary-key field is a name that objects do not inherit, with a key
    listed in the index (a list) of the table and no value under it: only
    [insert], of a record that passes the validator and has that key,
    reports the inconsistency, as a [DatabaseInsertError]; [get], [update]
    and [delete] report the item as not found; [getAll] raises no
    consistency error: when every member of the index holds a hash or
    nothing it resolves, with an empty object at every position of the
    key, and otherwise it rejects with the WRONGTYPE reply of the store.
    None of them changes the store, so nothing is repaired. *)
Theorem dangling_index_entry_detected_by_insert_only :
  ∀ (c : NedisClient) (table : string) (sd : SchemaDefinition) (p : string)
    (l : list string),
    ready c → registered c table sd →
    ordinary_field (pk sd) →
    members_of (db (redis c)) table = Some l →
    getKey table p ∈ l →
    db (redis c) !! getKey table p = None →
    (∀ r, schema sd r = None → join_elem (r !! pk sd) = p →
       insert table r c
       = (Rejected (DatabaseInsertError (getKey table p) index_violation),
          set_connected c))
    ∧ get table p c = (Rejected (ItemNotFoundError p table), set_connected c)
    ∧ (∀ data, update table p data c
               = (Rejected (ItemNotFoundError p table), set_connected c))
    ∧ delete table p c = (Rejected (ItemNotFoundError p table), set_connected c)
    ∧ (∀ hs, mapM (hash_of (db (redis c))) l = Some hs →
         getAll table c = (Resolved (hash_object <$> hs), set_connected c)
         ∧ ∀ i, l !! i = Some (getKey table p) → (hash_object <$> hs) !! i = Some ∅)
    ∧ (mapM (hash_of (db (redis c))) l = None →
         getAll table c = (Rejected wrongtype, set_connected c))
    ∧ db (redis (set_connected c)) = db (redis c).
Proof.
  intros c table sd p l Hr Hs _ Hm Hin Hex.
  pose proof (hash_of_None _ _ Hex) as Hh.
  split_and!.
  - intros r Hv Hk. rewrite (insert_eq c table r sd Hr Hs).
    rewrite Hv. cbv zeta. rewrite Hk, Hex, Hm.
    rewrite bool_decide_eq_false_2 by (by intros [? ?]).
    by rewrite bool_decide_eq_true_2.
  - rewrite (get_eq c table p sd Hr Hs), Hh. reflexivity.
  - intros data. rewrite (update_eq c table p data sd Hr Hs), Hh. reflexivity.
  - rewrite (delete_eq c table p sd Hr Hs), Hh. reflexivity.
  - intros hs Hhs. split.
    + by rewrite (getAll_eq c table sd Hr Hs), Hm, Hhs.
    + intros i Hi. rewrite list_lookup_fmap.
      rewrite (mapM_hash_of_lookup _ _ _ _ _ Hhs Hi), Hh. reflexivity.
  - intros Hhs. by rewrite (getAll_eq c table sd Hr Hs), Hm, Hhs.
  - reflexivity.
Qed.

Lemma ordinary_field_id : ordinary_field "id".
Proof. apply (bool_decide_unpack _). vm_compute. exact I. Qed.

Lemma dangling_index_entry_detected_by_insert_only_witness :
  let c := client_on [users] {[ "users" := RList ["users:1"] ]} in
  insert "users" andy c
  = (Rejected (DatabaseInsertError "users:1" index_violation), set_connected c)
  ∧ get "users" "1" c = (Rejected (ItemNotFoundError "1" "users"), set_connected c).
Proof.
  intros c.
  destruct (dangling_index_entry_detected_by_insert_only c "users" users "1"
              ["users:1"] eq_refl eq_refl ordinary_field_id eq_refl) as (Hins & Hget & _).
  - apply list_elem_of_singleton. reflexivity.
  - reflexivity.
  - split; [|exact Hget]. apply (Hins andy); reflexivity.
Defined.

(** ** Colliding keys *)


Lemma members_of_delete_ne (d : Database) key key' :
  key ≠ key' → members_of (base.delete key d) key' = members_of d key'.
Proof. intros. unfold members_of. by rewrite lookup_delete_ne. Qed.



(** ** Index consistency over a history of inserts and deletes *)

Lemma inserted_app ops1 ops2 : inserted (ops1 ++ ops2) = inserted ops1 ++ inserted ops2.
Proof. induction ops1 as [|[] ? IH]; simpl; by rewrite ?IH. Qed.

Lemma deleted_app ops1 ops2 : deleted (ops1 ++ ops2) = deleted ops1 ++ deleted ops2.
Proof. induction ops1 as [|[] ? IH]; simpl; by rewrite ?IH. Qed.

Lemma run_ops_snoc table ops op c :
  run_ops table (ops ++ [op]) c
  = match run_ops table ops c with
    | (Resolved _, c') =>
        match run_op table op c' with
        | (Resolved _, c'') => (Resolved tt, c'')
        | (Rejected e, c'') => (Rejected e, c'')
        end
    | (Rejected e, c') => (Rejected e, c')
    end.
Proof.
  revert c. induction ops as [|o ops IH]; intros c; simpl; unfold await.
  - unfold resolve. by destruct (run_op table op c) as [[] ?].
  - destruct (run_op table o c) as [[] ?]; [apply IH | done].
Qed.

Lemma filter_all {A} (P : A → Prop) `{∀ a, Decision (P a)} (l : list A) :
  (∀ a, a ∈ l → P a) → filter P l = l.
Proof.
  induction l as [|a l IH]; [done|]. intros Hall.
  rewrite filter_cons_True by (apply Hall; by left).
  f_equal. apply IH. intros b Hb. apply Hall. by right.
Qed.

Lemma remove_first_fmap_filter {A} (f : A → string) (g : A → string) (x : string)
    (p : string) (l : list A) :
  (∀ a, a ∈ l → f a = x ↔ g a = p) →
  NoDup (g <$> l) →
  remove_first x (f <$> l) = f <$> filter (λ a, g a ≠ p) l.
Proof.
  intros Hfg. induction l as [|a l IH]; [done|]. intros Hnd.
  rewrite fmap_cons in Hnd. apply NoDup_cons in Hnd as [Ha Hnd].
  simpl. destruct (decide (f a = x)) as [E|E].
  - apply Hfg in E; [|by left].
    rewrite filter_cons_False by (intros ?; done).
    rewrite filter_all; [done|].
    intros b Hb Hp. apply Ha. rewrite E, <- Hp. by apply list_elem_of_fmap_2.
  - rewrite filter_cons_True.
    + rewrite fmap_cons. f_equal. apply IH; [|done].
      intros b Hb. apply Hfg. by right.
    + intros Hp. apply E. apply Hfg; [by left | done].
Qed.

Section History.
Context (table : string) (sd : SchemaDefinition).

Lemma record_key_in_index (live : list JsObject) (r : JsObject) :
  record_key table sd r ∈ record_key table sd <$> live ↔ pk_of sd r ∈ pk_of sd <$> live.
Proof.
  rewrite !list_elem_of_fmap. split; intros (r' & E & Hr'); exists r'; split; try done.
  - by apply getKey_inj in E.
  - unfold record_key. by rewrite E.
Qed.

Lemma consistent_insert c live r c' :
  consistent table sd c live →
  insert table r c = (Resolved true, c') →
  consistent table sd c' (live ++ [r]) ∧ pk_of sd r ∉ pk_of sd <$> live.
Proof.
  intros [Hr Hs Hidx Hhash Horph Hnd] Hins.
  apply (insert_resolved_inv c table sd r true c' Hr Hs) in Hins
    as (_ & Hv & Hex & Hne & l & Hm & Hin & ->).
  fold (pk_of sd r) in Hex, Hin |- *. fold (record_key table sd r) in Hex, Hin |- *.
  rewrite Hidx in Hm. simplify_eq.
  assert (pk_of sd r ∉ pk_of sd <$> live) as Hfresh by by rewrite <- record_key_in_index.
  split; [|done]. split; try done.
  - rewrite db_set_db. rewrite members_of_insert_ne by apply getKey_ne_table.
    rewrite members_of_insert_eq. by rewrite fmap_app.
  - intros r' Hr'. rewrite db_set_db. apply elem_of_app in Hr' as [Hr'|Hr'].
    + rewrite lookup_insert_ne.
      * rewrite lookup_insert_ne by (symmetry; apply getKey_ne_table). by apply Hhash.
      * intros E. apply Hin. rewrite E. by apply list_elem_of_fmap_2.
    + apply list_elem_of_singleton in Hr' as ->. apply lookup_insert_eq.
  - intros p. rewrite db_set_db, fmap_app, elem_of_app.
    destruct (decide (record_key table sd r = getKey table p)) as [E|E].
    + intros _. right. apply getKey_inj in E as <-. by left.
    + rewrite lookup_insert_ne by done.
      rewrite lookup_insert_ne by (symmetry; apply getKey_ne_table).
      intros H. left. by apply Horph.
  - rewrite fmap_app. apply NoDup_app. split; [done|]. split; [|apply NoDup_singleton].
    intros x Hx Hx'. by apply list_elem_of_singleton in Hx' as ->.
Qed.

Lemma consistent_delete c live p c' :
  consistent table sd c live →
  delete table p c = (Resolved true, c') →
  consistent table sd c' (filter (λ r, pk_of sd r ≠ p) live) ∧ p ∈ pk_of sd <$> live.
Proof.
  intros [Hr Hs Hidx Hhash Horph Hnd] Hdel.
  rewrite (delete_eq c table p sd Hr Hs) in Hdel.
  destruct (hash_of _ _) as [h|] eqn:Hh; [|done].
  destruct (truthy _) eqn:Ht; [|done].
  rewrite Hidx in Hdel. simplify_eq.
  pose proof (hash_of_truthy _ _ _ _ Hh Ht) as Hex.
  assert (p ∈ pk_of sd <$> live) as Hp by (apply Horph; eauto).
  split; [|done]. split; try done.
  - rewrite db_set_db. rewrite members_of_delete_ne by apply getKey_ne_table.
    unfold members_of. rewrite lookup_partial_alter_eq.
    rewrite (remove_first_fmap_filter (record_key table sd) (pk_of sd) _ p); [| |done].
    + destruct (record_key table sd <$> filter _ _); reflexivity.
    + intros r _. split; [apply getKey_inj|]. unfold record_key. by intros ->.
  - intros r Hr'. apply list_elem_of_filter in Hr' as [Hne Hr'].
    rewrite db_set_db. rewrite lookup_delete_ne.
    + rewrite lookup_partial_alter_ne by (symmetry; apply getKey_ne_table).
      by apply Hhash.
    + intros E. apply getKey_inj in E. done.
  - intros p'. rewrite db_set_db.
    destruct (decide (getKey table p = getKey table p')) as [E|E].
    + rewrite E, lookup_delete_eq. by intros [? ?].
    + rewrite lookup_delete_ne by done.
      rewrite lookup_partial_alter_ne by (symmetry; apply getKey_ne_table).
      intros H. apply Horph in H. apply list_elem_of_fmap in H as (r & -> & Hr').
      apply list_elem_of_fmap_2, list_elem_of_filter. split; [|done].
      intros Epk. apply E. by rewrite Epk.
  - apply (sublist_NoDup _ (pk_of sd <$> live) Hnd).
    apply fmap_sublist, sublist_filter.
Qed.

Lemma consistent_getAll c live :
  consistent table sd c live →
  getAll table c = (Resolved (stored_form <$> live), set_connected c).
Proof.
  intros [Hr Hs Hidx Hhash _ _].
  rewrite (getAll_eq c table sd Hr Hs), Hidx.
  assert (mapM (hash_of (db (redis c))) (record_key table sd <$> live)
          = Some (object_fields <$> live)) as ->.
  { apply mapM_Some. apply Forall2_fmap, Forall2_same_length_lookup.
    split; [done|]. intros i r r' Hi Hi'. simplify_eq.
    apply hash_of_Some_RHash, Hhash. by apply list_elem_of_lookup_2 in Hi. }
  by rewrite <- list_fmap_compose.
Qed.

End History.

Lemma consistent_empty table sd c :
  ready c → registered c table sd →
  members_of (db (redis c)) table = Some [] →
  (∀ p, db (redis c) !! getKey table p = None) →
  consistent table sd c [].
Proof.
  intros Hr Hs Hm Hnone. split; try done.
  - intros r Hr'. by apply elem_of_nil in Hr'.
  - intros p [v Hv]. by rewrite Hnone in Hv.
  - constructor.
Qed.

Lemma inserted_not_deleted_insert sd ops r :
  pk_of sd r ∉ deleted ops →
  inserted_not_deleted sd (ops ++ [Insert r]) = inserted_not_deleted sd ops ++ [r].
Proof.
  intros Hr. unfold inserted_not_deleted.
  rewrite inserted_app, deleted_app. simpl. rewrite app_nil_r, filter_app.
  by rewrite (filter_cons_True _ r []).
Qed.

Lemma inserted_not_deleted_delete sd ops p :
  inserted_not_deleted sd (ops ++ [Delete p])
  = filter (λ r, pk_of sd r ≠ p) (inserted_not_deleted sd ops).
Proof.
  unfold inserted_not_deleted.
  rewrite inserted_app, deleted_app. simpl. rewrite app_nil_r, list_filter_filter.
  apply list_filter_iff. intros r. rewrite not_elem_of_app, list_elem_of_singleton. tauto.
Qed.

(** The invariant holds along every history of successful calls that
    starts on an empty table and inserts no primary key twice. *)
Lemma history_consistent table sd c ops :
  consistent table sd c [] →
  NoDup (pk_of sd <$> inserted ops) →
  ∀ c', run_ops table ops c = (Resolved tt, c') →
        consistent table sd c' (inserted_not_deleted sd ops)
        ∧ ∀ p, p ∈ deleted ops → p ∈ pk_of sd <$> inserted ops.
Proof.
  intros H0. induction ops as [|op ops IH] using rev_ind; intros Hnd c' Hrun.
  - simpl in Hrun. unfold resolve in Hrun. simplify_eq. split; [done|].
    intros p Hp. by apply elem_of_nil in Hp.
  - rewrite run_ops_snoc in Hrun.
    destruct (run_ops table ops c) as [[[]|e] c1] eqn:Hrun1; [|done].
    destruct (run_op table op c1) as [[b|e] c2] eqn:Hop; [|done]. simplify_eq.
    rewrite inserted_app, fmap_app in Hnd.
    pose proof Hnd as (Hnd1 & Hdis & _)%NoDup_app.
    destruct (IH Hnd1 c1 eq_refl) as [Hc Hdel].
    destruct op as [r|p]; simpl in Hop.
    + assert (b = true) as ->.
      { by apply (insert_resolved_inv c1 table sd r b c' (consistent_ready _ _ _ _ Hc)
                    (consistent_registered _ _ _ _ Hc)) in Hop as [-> _]. }
      assert (pk_of sd r ∉ deleted ops) as Hfresh.
      { intros Hin. apply Hdel in Hin. apply (Hdis _ Hin). simpl. by left. }
      rewrite inserted_not_deleted_insert by done.
      split; [by apply (consistent_insert table sd c1 _ r c' Hc)|].
      intros p. rewrite deleted_app, inserted_app, fmap_app. simpl.
      rewrite app_nil_r. intros Hp. apply elem_of_app. left. by apply Hdel.
    + assert (b = true) as ->.
      { rewrite (delete_eq c1 table p sd (consistent_ready _ _ _ _ Hc)
                   (consistent_registered _ _ _ _ Hc)) in Hop.
        destruct (hash_of _ _); [|done]. destruct (truthy _); [|done].
        destruct (members_of _ _); by simplify_eq. }
      rewrite inserted_not_deleted_delete.
      destruct (consistent_delete table sd c1 _ p c' Hc Hop) as [Hc' Hp].
      split; [done|].
      intros p'. rewrite deleted_app, inserted_app, fmap_app. simpl.
      rewrite app_nil_r. intros [Hp'|Hp']%elem_of_app; [by apply Hdel|].
      apply list_elem_of_singleton in Hp' as ->.
      apply list_elem_of_fmap in Hp as (r & -> & Hr).
      apply list_elem_of_fmap_2. by apply list_elem_of_filter in Hr as [_ Hr].
Qed.

Lemma stored_form_all_string_valued (l : list JsObject) :
  Forall string_valued l → stored_form <$> l = l.
Proof.
  induction 1 as [|r l Hr _ IH]; [done|]. rewrite fmap_cons, IH.
  by rewrite (proj2 (stored_form_string_valued r) Hr).
Qed.

(** C2, as stated, fails on a number: [getAll] returns the record with
    the number as a string. *)
Lemma getAll_history_counterexample :
  ∃ c1 rs,
    run_ops "dogs" [Insert ralph] (client_on [dogs] ∅) = (Resolved tt, c1)
    ∧ getAll "dogs" c1 = (Resolved rs, c1)
    ∧ inserted_not_deleted dogs [Insert ralph] = [ralph]
    ∧ rs ≠ [ralph].
Proof.
  eexists _, _. split_and!; try (vm_compute; reflexivity).
  intros E. apply (f_equal (λ l, l !! 0%nat ≫= (.!! "paws"))) in E.
  vm_compute in E. discriminate.
Qed.

(** C2 (amended): after a history of successful inserts, no primary key
    twice, and successful deletes on a table that was empty, [getAll]
    resolves with the records that were inserted and not deleted, in
    insertion order, each as stored: every value rendered as a string.
    They are the records themselves when these have strings only.  On the
    empty table [getAll] resolves with the empty sequence. *)
Theorem getAll_after_inserts_and_deletes :
  ∀ (c c' : NedisClient) (table : string) (sd : SchemaDefinition)
    (ops : list TableOp),
    ready c → registered c table sd →
    members_of (db (redis c)) table = Some [] →
    (∀ p, db (redis c) !! getKey table p = None) →
    NoDup (pk_of sd <$> inserted ops) →
    run_ops table ops c = (Resolved tt, c') →
    getAll table c'
    = (Resolved (stored_form <$> inserted_not_deleted sd ops), set_connected c')
    ∧ (Forall string_valued (inserted ops) →
       getAll table c' = (Resolved (inserted_not_deleted sd ops), set_connected c'))
    ∧ getAll table c = (Resolved [], set_connected c).
Proof.
  intros c c' table sd ops Hr Hs Hm Hnone Hnd Hrun.
  pose proof (consistent_empty table sd c Hr Hs Hm Hnone) as H0.
  destruct (history_consistent table sd c ops H0 Hnd c' Hrun) as [Hc _].
  split_and!.
  - by apply (consistent_getAll table sd).
  - intros Hstr. rewrite (consistent_getAll table sd c' _ Hc).
    rewrite stored_form_all_string_valued; [done|].
    apply Forall_forall. intros r [_ Hr']%list_elem_of_filter.
    by apply (proj1 (Forall_forall _ _) Hstr).
  - by apply (consistent_getAll table sd c []).
Qed.

Lemma getAll_after_inserts_and_deletes_witness :
  run_ops "users" delete_test (client_on [users] ∅) = (Resolved tt, after_delete_test)
  ∧ inserted_not_deleted users delete_test = [david]
  ∧ getAll "users" after_delete_test
    = (Resolved (stored_form <$> inserted_not_deleted users delete_test),
       set_connected after_delete_test).
Proof.
  assert (run_ops "users" delete_test (client_on [users] ∅)
          = (Resolved tt, after_delete_test)) as Hrun by (vm_compute; reflexivity).
  split; [exact Hrun|]. split; [vm_compute; reflexivity|].
  refine (proj1 (getAll_after_inserts_and_deletes (client_on [users] ∅) after_delete_test
                   "users" users delete_test eq_refl eq_refl eq_refl _ _ Hrun)).
  - intros p. apply lookup_empty.
  - apply (bool_decide_unpack _). vm_compute. exact I.
Defined.

(** ** The scenarios of the test suite and of the specification *)

Example duplicate_schema_single :
  (registerSchemas [users; dogs] ;; registerSchema users) (client_on [] ∅)
  = (Rejected (DuplicateSchemaError "users"), client_on [users; dogs] ∅)
  ∧ message (DuplicateSchemaError "users")
    = dquote +:+ "users" +:+ dquote +:+ " schema is already registered.".
Proof. split; reflexivity. Qed.

Example duplicate_schema_batch :
  (registerSchemas [users; dogs] ;; registerSchemas [users; dogs]) (client_on [] ∅)
  = (Rejected (DuplicateSchemaError "users"), client_on [users; dogs] ∅).
Proof. reflexivity. Qed.

Example unregistered_schema :
  insert "cats" ralph (client_on [dogs] ∅)
  = (Rejected (UnregisteredSchemaError "cats"), set_connected (client_on [dogs] ∅))
  ∧ message (UnregisteredSchemaError "cats")
    = "Schema " +:+ dquote +:+ "cats" +:+ dquote +:+ " is not registered.".
Proof. split; reflexivity. Qed.

Example key_exists :
  insert "users" andy (client_on [users] {[ "users:1" := RString "blah" ]})
  = (Rejected (ItemAlreadyExistsError "users:1"),
     set_connected (client_on [users] {[ "users:1" := RString "blah" ]}))
  ∧ message (ItemAlreadyExistsError "users:1")
    = "Item with key " +:+ dquote +:+ "users:1" +:+ dquote +:+ " already exists.".
Proof. split; vm_compute; reflexivity. Qed.

Example key_in_table_set_message :
  message (DatabaseInsertError "users:1" index_violation)
  = "Error inserting into key " +:+ dquote +:+ "users:1" +:+ dquote
    +:+ ". Error: Key doesnt exist but key is in table set.".
Proof. reflexivity. Qed.

Example get_all_of_two :
  ((insert "users" andrew ;; insert "users" david ;; getAll "users") (client_on [users] ∅)).1
  = Resolved [andrew; david].
Proof. vm_compute. reflexivity. Qed.

Example item_not_found :
  get "users" "doggo" (client_on [users] ∅)
  = (Rejected (ItemNotFoundError "doggo" "users"), set_connected (client_on [users] ∅))
  ∧ message (ItemNotFoundError "doggo" "users")
    = dquote +:+ "users" +:+ dquote +:+ " item by primary key "
      +:+ dquote +:+ "doggo" +:+ dquote +:+ " does not exist.".
Proof. split; reflexivity. Qed.

(** Section 8 of the specification: insert, get, update, delete, get. *)
Example dogs_scenario :
  let c := client_on [dogs] ∅ in
  (insert "dogs" ralph_text c).1 = Resolved true
  ∧ ((insert "dogs" ralph_text ;; get "dogs" "1") c).1 = Resolved ralph_text
  ∧ ((insert "dogs" ralph_text ;; update "dogs" "1" (object [("paws", JStr "2")])) c).1
    = Resolved (object [("id", JStr "1"); ("name", JStr "ralph"); ("paws", JStr "2")])
  ∧ ((insert "dogs" ralph_text ;; delete "dogs" "1") c).1 = Resolved true
  ∧ ((insert "dogs" ralph_text ;; delete "dogs" "1" ;; get "dogs" "1") c).1
    = Rejected (ItemNotFoundError "1" "dogs")
  ∧ db (redis ((insert "dogs" ralph_text ;; delete "dogs" "1") c).2) = ∅.
Proof. cbv zeta. split_and!; vm_compute; reflexivity. Qed.

(** * Further properties of the code *)

(** ** What a call leaves alone *)

Lemma preserves_resolve {A} P (a : A) : preserves P (resolve a).
Proof. by intros c. Qed.

Lemma preserves_throw {A} P e : preserves P (@throw A e).
Proof. by intros c. Qed.

Lemma preserves_await {A B} P (m : Promise A) (k : A → Promise B) :
  preserves P m → (∀ a, preserves P (k a)) → preserves P (await m k).
Proof.
  intros Hm Hk c Hc. unfold await. specialize (Hm c Hc).
  destruct (m c) as [[a|e] c']; simpl in *; [by apply Hk | done].
Qed.

Lemma preserves_try_catch {A} P (m : Promise A) handler :
  preserves P m → (∀ e, preserves P (handler e)) → preserves P (try_catch m handler).
Proof.
  intros Hm Hh c Hc. unfold try_catch. specialize (Hm c Hc).
  destruct (m c) as [[a|e] c']; simpl in *; [done | by apply Hh].
Qed.

Lemma preserves_if {A} P (b : bool) (m1 m2 : Promise A) :
  preserves P m1 → preserves P m2 → preserves P (if b then m1 else m2).
Proof. by destruct b. Qed.

Lemma preserves_send_read {A} P (cmd : Database → reply A) :
  read_only cmd → preserves P (send cmd).
Proof.
  intros Hro c Hc. unfold send. destruct (reachable (redis c)); [|done].
  destruct (cmd (db (redis c))) as [e|[a d]] eqn:E; [done|].
  apply Hro in E as ->. simpl. by rewrite set_db_id.
Qed.

Lemma preserves_send_write {A} P (cmd : Database → reply A) :
  ignores_db P → preserves P (send cmd).
Proof.
  intros Hdb c Hc. unfold send. destruct (reachable (redis c)); [|done].
  destruct (cmd (db (redis c))) as [e|[a d]]; [done|]. by apply Hdb.
Qed.

Lemma preserves_send_closed {A} P (cmd : Database → reply A) :
  (∀ c, P c → reachable (redis c) = false) → preserves P (send cmd).
Proof. intros Hcl c Hc. unfold send. by rewrite (Hcl c Hc). Qed.

Lemma read_only_exists key : read_only (cmd_exists key).
Proof. intros d a d' E. unfold cmd_exists in E. by simplify_eq. Qed.

Lemma read_only_hgetall key : read_only (cmd_hgetall key).
Proof.
  intros d a d' E. unfold cmd_hgetall in E.
  destruct (d !! key) as [[]|]; by simplify_eq.
Qed.

Lemma read_only_lrange_all key : read_only (cmd_lrange_all key).
Proof.
  intros d a d' E. unfold cmd_lrange_all in E.
  destruct (d !! key) as [[]|]; by simplify_eq.
Qed.

Lemma preserves_checkConnection P : ignores_connected P → preserves P checkConnection.
Proof.
  intros Hco c Hc. unfold checkConnection, connect, try_catch, await, redis_connect.
  destruct (connected c); [done|]. destruct (reachable (redis c)); simpl; [by apply Hco | done].
Qed.

Lemma preserves_validateSchema P table : preserves P (validateSchema table).
Proof. intros c Hc. unfold validateSchema. by destruct (find _ _). Qed.

Lemma preserves_validateData P data JoiSchema : preserves P (validateData data JoiSchema).
Proof. intros c Hc. unfold validateData. by destruct (JoiSchema data). Qed.

Lemma preserves_lmembers P table : preserves P (lmembers table).
Proof. apply preserves_send_read, read_only_lrange_all. Qed.

Lemma preserves_get P table p : ignores_connected P → preserves P (get table p).
Proof.
  intros Hco. unfold get.
  apply preserves_await; [by apply preserves_checkConnection | intros _].
  apply preserves_await; [apply preserves_validateSchema | intros sd].
  apply preserves_await; [apply preserves_send_read, read_only_hgetall | intros h].
  apply preserves_if; [apply preserves_resolve | apply preserves_throw].
Qed.

Lemma preserves_hgetall_each P members : preserves P (hgetall_each members).
Proof.
  induction members as [|key rest IH]; [apply preserves_resolve|]. simpl.
  apply preserves_await; [apply preserves_send_read, read_only_hgetall | intros h].
  apply preserves_await; [apply IH | intros hs]. apply preserves_resolve.
Qed.

Lemma preserves_getAll P table : ignores_connected P → preserves P (getAll table).
Proof.
  intros Hco. unfold getAll.
  apply preserves_await; [by apply preserves_checkConnection | intros _].
  apply preserves_await; [apply preserves_validateSchema | intros _].
  apply preserves_await; [apply preserves_lmembers | intros members].
  apply preserves_hgetall_each.
Qed.

Lemma preserves_addToIndex P table key :
  ignores_connected P → survives_commands P → preserves P (addToIndex table key).
Proof.
  intros Hco Hw. unfold addToIndex.
  apply preserves_await; [by apply preserves_checkConnection | intros _].
  apply preserves_await; [apply preserves_lmembers | intros members].
  apply preserves_if; [apply preserves_throw|].
  apply preserves_await; [apply Hw | intros _]. apply preserves_resolve.
Qed.

Lemma preserves_insert P table data :
  ignores_connected P → survives_commands P → preserves P (insert table data).
Proof.
  intros Hco Hw. unfold insert.
  apply preserves_await; [by apply preserves_checkConnection | intros _].
  apply preserves_await; [apply preserves_validateSchema | intros sd].
  apply preserves_await; [apply preserves_validateData | intros _].
  apply preserves_await; [apply Hw | intros keyExists].
  apply preserves_if; [apply preserves_throw|].
  apply preserves_try_catch.
  - apply preserves_await; [by apply preserves_addToIndex | intros _].
    apply preserves_await; [apply Hw | intros _]. apply preserves_resolve.
  - intros e. apply preserves_if; apply preserves_throw.
Qed.

Lemma preserves_update P table p data :
  ignores_connected P → survives_commands P → preserves P (update table p data).
Proof.
  intros Hco Hw. unfold update.
  apply preserves_await; [by apply preserves_checkConnection | intros _].
  apply preserves_await; [by apply preserves_get | intros item].
  apply preserves_await; [apply Hw | intros _]. apply preserves_resolve.
Qed.

Lemma preserves_delete P table p :
  ignores_connected P → survives_commands P → preserves P (delete table p).
Proof.
  intros Hco Hw. unfold delete.
  apply preserves_await; [by apply preserves_checkConnection | intros _].
  apply preserves_await; [by apply preserves_get | intros item].
  apply preserves_await; [apply Hw | intros _].
  apply preserves_await; [apply Hw | intros _]. apply preserves_resolve.
Qed.

Lemma keeps_of_preserves {A B} (f : NedisClient → B) (m : Promise A) :
  (∀ b, preserves (λ c, f c = b) m) → keeps f m.
Proof. intros H c. by apply (H (f c) c). Qed.

(** X4: the reads never write.  [get], [getAll] and [lmembers] leave the
    database as it was, whether they resolve or reject. *)
Theorem reads_keep_database :
  ∀ table p : string,
    keeps database (get table p)
    ∧ keeps database (getAll table)
    ∧ keeps database (lmembers table).
Proof.
  intros table p. split_and!; apply keeps_of_preserves; intros b.
  - apply preserves_get. by intros c.
  - apply preserves_getAll. by intros c.
  - apply preserves_lmembers.
Qed.

Lemma survives_commands_settings b : survives_commands (λ c, settings c = b).
Proof. intros A cmd. apply preserves_send_write. by intros d c. Qed.

(** X5: no table operation touches the configuration, the registry or the
    reachability of the server, whatever its outcome. *)
Theorem operations_keep_settings :
  ∀ (table p key : string) (data : JsObject),
    keeps settings (insert table data)
    ∧ keeps settings (get table p)
    ∧ keeps settings (getAll table)
    ∧ keeps settings (update table p data)
    ∧ keeps settings (delete table p)
    ∧ keeps settings (lmembers table)
    ∧ keeps settings (addToIndex table key).
Proof.
  intros table p key data.
  split_and!; apply keeps_of_preserves; intros b;
    pose proof (survives_commands_settings b) as Hw;
    assert (ignores_connected (λ c, settings c = b)) as Hco by (by intros c).
  - by apply preserves_insert.
  - by apply preserves_get.
  - by apply preserves_getAll.
  - by apply preserves_update.
  - by apply preserves_delete.
  - apply preserves_lmembers.
  - by apply preserves_addToIndex.
Qed.

Lemma checkConnection_resolved c c1 :
  checkConnection c = (Resolved tt, c1) →
  connected c1 = true ∧ checkConnection c1 = (Resolved tt, c1).
Proof.
  unfold checkConnection, connect, try_catch, await, redis_connect.
  destruct (connected c) eqn:Hc.
  - intros ?; simplify_eq. by rewrite Hc.
  - destruct (reachable (redis c)); intros ?; by simplify_eq.
Qed.

Lemma connects_after_check {A} (k : unit → Promise A) :
  preserves (λ c, connected c = true) (await checkConnection k) →
  connects (await checkConnection k).
Proof.
  intros Hp c a c' H.
  assert (∃ c1, checkConnection c = (Resolved tt, c1)) as [c1 E].
  { unfold await in H. destruct (checkConnection c) as [[[]|e] c1]; [eauto | done]. }
  destruct (checkConnection_resolved c c1 E) as [Hc1 E1].
  rewrite (await_resolved _ _ _ _ _ E) in H.
  specialize (Hp c1 Hc1). rewrite (await_resolved _ _ _ _ _ E1), H in Hp. done.
Qed.

Lemma survives_commands_connected : survives_commands (λ c, connected c = true).
Proof. intros A cmd. apply preserves_send_write. by intros d c. Qed.

(** X3: the connection is made once.  No operation resets [connected], and
    [insert], [get], [getAll], [update] and [delete] resolve on a connected
    client only. *)
Theorem connection_is_made_once :
  ∀ (table p : string) (data : JsObject),
    (preserves (λ c, connected c = true) (insert table data)
     ∧ preserves (λ c, connected c = true) (get table p)
     ∧ preserves (λ c, connected c = true) (getAll table)
     ∧ preserves (λ c, connected c = true) (update table p data)
     ∧ preserves (λ c, connected c = true) (delete table p)
     ∧ preserves (λ c, connected c = true) (lmembers table))
    ∧ connects (insert table data)
    ∧ connects (get table p)
    ∧ connects (getAll table)
    ∧ connects (update table p data)
    ∧ connects (delete table p).
Proof.
  intros table p data. pose proof survives_commands_connected as Hw.
  assert (ignores_connected (λ c, connected c = true)) as Hco by (by intros c).
  split_and!; try apply connects_after_check.
  all: first [ by apply preserves_insert | by apply preserves_get
             | by apply preserves_getAll | by apply preserves_update
             | by apply preserves_delete | apply preserves_lmembers ].
Qed.

(** X6: [insert] writes inside its [try] block only, and every rejection
    that leaves that block is a [DatabaseInsertError].  So when [insert]
    rejects with any other error (the connection, the schema, the
    validator, an existing key, the redis client), the database is as it
    was, on every client. *)
Theorem insert_rejected_before_try_writes_nothing :
  ∀ (c c' : NedisClient) (table : string) (data : JsObject) (e : NedisError),
    insert table data c = (Rejected e, c') →
    is_DatabaseInsertError e = false →
    database c' = database c.
Proof.
  intros c c' table data e H He. unfold database.
  destruct (reachable (redis c)) eqn:Hr.
  - destruct (find (λ s, bool_decide (name s = table)) (registeredSchemas c)) as [sd|] eqn:Hf.
    + rewrite (insert_eq c table data sd Hr Hf) in H.
      destruct (schema sd data); [by simplify_eq|]. cbv zeta in H.
      case_bool_decide; [by simplify_eq|].
      destruct (members_of _ _); [|by simplify_eq].
      case_bool_decide; [by simplify_eq|].
      destruct (decide _); by simplify_eq.
    + unfold insert in H.
      rewrite (await_resolved _ _ _ _ _ (checkConnection_ready c Hr)) in H.
      rewrite (await_rejected _ _ _ _ _
                 (validateSchema_unregistered (set_connected c) table Hf)) in H.
      by simplify_eq.
  - pose proof (preserves_insert
                  (λ c0, reachable (redis c0) = false ∧ db (redis c0) = db (redis c))
                  table data) as Hp.
    destruct (Hp) with (c := c) as [_ Hdb]; [by intros ? [? ?] | | done |].
    + intros A cmd. apply preserves_send_closed. by intros ? [? ?].
    + by rewrite H in Hdb.
Qed.

Lemma insert_rejected_before_try_writes_nothing_witness :
  insert "users" andy (client_on [users] {[ "users:1" := RString "blah" ]})
  = (Rejected (ItemAlreadyExistsError "users:1"),
     set_connected (client_on [users] {[ "users:1" := RString "blah" ]}))
  ∧ database (set_connected (client_on [users] {[ "users:1" := RString "blah" ]}))
    = database (client_on [users] {[ "users:1" := RString "blah" ]}).
Proof.
  assert (insert "users" andy (client_on [users] {[ "users:1" := RString "blah" ]})
          = (Rejected (ItemAlreadyExistsError "users:1"),
             set_connected (client_on [users] {[ "users:1" := RString "blah" ]}))) as H
    by (vm_compute; reflexivity).
  split; [exact H|].
  exact (insert_rejected_before_try_writes_nothing _ _ "users" andy _ H eq_refl).
Defined.

(** ** Outcomes of [insert] *)



(** X7: a write of [insert] that fails after the index was extended.  On
    a table whose primary-key field is a name that objects do not inherit,
    a record without fields has the key of the empty primary key; it passes
    the existence check and the index-add, the hash write fails, and the
    error comes back wrapped in a [DatabaseInsertError] on the key; the
    index keeps the key, no hash is under it, and every later [insert] for
    that key is rejected on the index. *)
Theorem insert_without_fields_leaves_index_entry :
  ∀ (c : NedisClient) (table : string) (sd : SchemaDefinition) (l : list string),
    ready c → registered c table sd →
    ordinary_field (pk sd) →
    schema sd ∅ = None →
    database c !! getKey table "" = None →
    members_of (database c) table = Some l →
    getKey table "" ∉ l →
    ∃ c1,
      insert table ∅ c = (Rejected (DatabaseInsertError (getKey table "") hmset_arity), c1)
      ∧ members_of (database c1) table = Some (l ++ [getKey table ""])
      ∧ database c1 !! getKey table "" = None
      ∧ ∀ r, schema sd r = None → pk_of sd r = "" →
          insert table r c1
          = (Rejected (DatabaseInsertError (getKey table "") index_violation), c1).
Proof.
  intros c table sd l Hr Hs _ Hv Hex Hm Hin. unfold database in *.
  eexists. split_and!.
  - rewrite (insert_eq c table ∅ sd Hr Hs), Hv. cbv zeta.
    rewrite lookup_empty. simpl join_elem. rewrite Hex, Hm.
    rewrite bool_decide_eq_false_2 by (by intros [? ?]).
    rewrite bool_decide_eq_false_2 by done.
    destruct (decide _) as [_|Hne]; [reflexivity|].
    exfalso. apply Hne. by apply object_fields_empty.
  - rewrite db_set_db. apply members_of_insert_eq.
  - rewrite db_set_db. by rewrite lookup_insert_ne by (symmetry; apply getKey_ne_table).
  - intros r Hvr Hpk. rewrite (insert_eq _ table r sd) by done.
    rewrite Hvr. cbv zeta. fold (pk_of sd r). rewrite Hpk, db_set_db.
    rewrite lookup_insert_ne by (symmetry; apply getKey_ne_table). rewrite Hex.
    rewrite bool_decide_eq_false_2 by (by intros [? ?]).
    rewrite members_of_insert_eq.
    rewrite bool_decide_eq_true_2 by (apply elem_of_app; right; by left).
    reflexivity.
Qed.

Lemma insert_without_fields_leaves_index_entry_witness :
  ∃ c1,
    insert "users" ∅ (client_on [users] ∅)
    = (Rejected (DatabaseInsertError "users:" hmset_arity), c1)
    ∧ members_of (database c1) "users" = Some ["users:"].
Proof.
  assert (members_of (database (client_on [users] ∅)) "users" = Some []) as Hidx
    by (vm_compute; reflexivity).
  destruct (insert_without_fields_leaves_index_entry (client_on [users] ∅) "users" users []
              eq_refl eq_refl ordinary_field_id eq_refl (lookup_empty _) Hidx)
    as (c1 & E & Hm & _).
  - apply not_elem_of_nil.
  - exists c1. by split.
Defined.

(** ** Items that are not found *)



(** ** Delete *)

Lemma update_resolved_inv c table sd p data o c1 :
  ready c → registered c table sd →
  update table p data c = (Resolved o, c1) →
  ∃ h, hash_of (db (redis c)) (getKey table p) = Some h
       ∧ truthy (hash_object h !! pk sd) = true
       ∧ o = object_assign (hash_object h) data
       ∧ c1 = set_db (<[getKey table p := RHash (object_fields o)]> (db (redis c)))
                     (set_connected c).
Proof.
  intros Hr Hs H. rewrite (update_eq c table p data sd Hr Hs) in H.
  destruct (hash_of _ _) as [h|]; [|done]. destruct (truthy _) eqn:Ht; [|done].
  cbv zeta in H. simplify_eq. by exists h.
Qed.

Lemma delete_resolved_inv c table sd p b c1 :
  ready c → registered c table sd →
  delete table p c = (Resolved b, c1) →
  ∃ h l, hash_of (db (redis c)) (getKey table p) = Some h
         ∧ truthy (hash_object h !! pk sd) = true
         ∧ members_of (db (redis c)) table = Some l
         ∧ b = true
         ∧ c1 = set_db (base.delete (getKey table p)
                          (partial_alter (λ _, store_list (remove_first (getKey table p) l))
                                         table (db (redis c))))
                       (set_connected c).
Proof.
  intros Hr Hs H. rewrite (delete_eq c table p sd Hr Hs) in H.
  destruct (hash_of _ _) as [h|]; [|done]. destruct (truthy _) eqn:Ht; [|done].
  destruct (members_of _ _) as [l|]; [|done]. simplify_eq. by exists h, l.
Qed.

Lemma members_of_store_list (d : Database) table l :
  members_of (partial_alter (λ _, store_list l) table d) table = Some l.
Proof. unfold members_of. rewrite lookup_partial_alter_eq. by destruct l. Qed.

(** X10: after a successful [delete] the item is gone: nothing is under its
    key, the index has lost the first occurrence of the key and nothing
    else, and, the primary-key field being a name that objects do not
    inherit, [get] and a second [delete] report the item as not found. *)
Theorem delete_then_not_found :
  ∀ (c c1 : NedisClient) (table : string) (sd : SchemaDefinition) (p : string),
    ready c → registered c table sd →
    ordinary_field (pk sd) →
    delete table p c = (Resolved true, c1) →
    database c1 !! getKey table p = None
    ∧ get table p c1 = (Rejected (ItemNotFoundError p table), c1)
    ∧ delete table p c1 = (Rejected (ItemNotFoundError p table), c1)
    ∧ ∃ l, members_of (database c) table = Some l
           ∧ members_of (database c1) table = Some (remove_first (getKey table p) l).
Proof.
  intros c c1 table sd p Hr Hs _ H. unfold database.
  apply (delete_resolved_inv c table sd p true c1 Hr Hs) in H
    as (h & l & Hh & Ht & Hm & _ & ->).
  assert (hash_of (base.delete (getKey table p)
                     (partial_alter (λ _, store_list (remove_first (getKey table p) l))
                                    table (db (redis c)))) (getKey table p) = Some ∅) as Hgone.
  { apply hash_of_None, lookup_delete_eq. }
  split_and!.
  - rewrite db_set_db. apply lookup_delete_eq.
  - rewrite (get_eq _ table p sd) by done. rewrite db_set_db, Hgone. reflexivity.
  - rewrite (delete_eq _ table p sd) by done. rewrite db_set_db, Hgone. reflexivity.
  - exists l. split; [done|]. rewrite db_set_db.
    rewrite members_of_delete_ne by apply getKey_ne_table.
    apply members_of_store_list.
Qed.

Lemma delete_then_not_found_witness :
  get "users" "1" after_delete_test
  = (Rejected (ItemNotFoundError "1" "users"), after_delete_test).
Proof.
  assert (∃ c, ready c ∧ registered c "users" users
               ∧ delete "users" "1" c = (Resolved true, after_delete_test))
    as (c & Hr & Hs & Hdel).
  { exists (run_ops "users" [Insert andrew; Insert david] (client_on [users] ∅)).2.
    split_and!; vm_compute; reflexivity. }
  exact (proj1 (proj2 (delete_then_not_found c after_delete_test "users" users "1"
                         Hr Hs ordinary_field_id Hdel))).
Defined.

Lemma remove_first_last (key : string) (l : list string) :
  key ∉ l → remove_first key (l ++ [key]) = l.
Proof.
  induction l as [|x l IH]; simpl; intros Hin.
  - by rewrite decide_True.
  - apply not_elem_of_cons in Hin as [Hne Hin].
    rewrite decide_False by done. by rewrite IH.
Qed.

Lemma members_of_lookup (d : Database) table l :
  members_of d table = Some l → d !! table ≠ Some (RList []) → d !! table = store_list l.
Proof.
  unfold members_of. destruct (d !! table) as [[| |l']|]; intros; simplify_eq; try done.
  by destruct l.
Qed.

(** X11: [delete] undoes [insert].  Deleting a record right after it was
    inserted resolves and gives back the database of before the insert,
    key for key. *)
Theorem insert_then_delete_restores :
  ∀ (c c1 : NedisClient) (table : string) (sd : SchemaDefinition) (r : JsObject),
    ready c → registered c table sd →
    insert table r c = (Resolved true, c1) →
    pk_of sd r ≠ "" →
    database c !! table ≠ Some (RList []) →
    ∃ c2, delete table (pk_of sd r) c1 = (Resolved true, c2)
          ∧ database c2 = database c.
Proof.
  intros c c1 table sd r Hr Hs H Hp Hlist. unfold database in *.
  apply (insert_resolved_inv c table sd r true c1 Hr Hs) in H
    as (_ & Hv & Hex & Hne & l & Hm & Hin & ->).
  fold (pk_of sd r) in Hex, Hin |- *. set (key := getKey table (pk_of sd r)) in *.
  eexists. split.
  - rewrite (delete_eq _ table (pk_of sd r) sd) by done. fold key.
    rewrite db_set_db, hash_of_insert_eq. fold (stored_form r).
    rewrite stored_form_lookup. unfold pk_of in Hp.
    destruct (r !! pk sd) as [v|]; [|done]. simpl in *.
    rewrite bool_decide_eq_false_2 by done. simpl.
    rewrite members_of_insert_ne by apply getKey_ne_table.
    rewrite members_of_insert_eq. reflexivity.
  - rewrite db_set_db, remove_first_last by done. apply map_eq. intros i.
    destruct (decide (i = key)) as [->|Hik].
    { by rewrite lookup_delete_eq, Hex. }
    rewrite lookup_delete_ne by done.
    destruct (decide (i = table)) as [->|Hit].
    { rewrite lookup_partial_alter_eq. symmetry. by apply members_of_lookup. }
    rewrite lookup_partial_alter_ne by done.
    rewrite lookup_insert_ne by done. by rewrite lookup_insert_ne.
Qed.

Lemma insert_then_delete_restores_witness :
  ∃ c1 c2,
    insert "users" andy (client_on [users] ∅) = (Resolved true, c1)
    ∧ delete "users" "1" c1 = (Resolved true, c2)
    ∧ database c2 = database (client_on [users] ∅).
Proof.
  assert (insert "users" andy (client_on [users] ∅)
          = (Resolved true, (insert "users" andy (client_on [users] ∅)).2)) as Hins
    by (vm_compute; reflexivity).
  destruct (insert_then_delete_restores (client_on [users] ∅) _ "users" users andy
              eq_refl eq_refl Hins) as (c2 & Hdel & Hdb).
  - vm_compute. discriminate.
  - vm_compute. discriminate.
  - eexists _, c2. split; [exact Hins|]. split; [exact Hdel | exact Hdb].
Defined.

(** ** Update, read back and repeated *)

Lemma object_fields_assign_again (h : gmap string string) (data : JsObject) :
  object_fields (object_assign (stored_form (object_assign (hash_object h) data)) data)
  = object_fields (object_assign (hash_object h) data).
Proof.
  unfold object_fields. apply map_eq. intros i.
  rewrite !lookup_fmap, !object_assign_lookup, stored_form_lookup, object_assign_lookup.
  destruct (data !! i); [done|]. unfold hash_object. rewrite lookup_fmap.
  by destruct (h !! i).
Qed.

(** X12: what [update] resolves with is what the store then holds.  A [get]
    after the update returns the result with its values as strings, unless
    the update emptied the primary-key field, in which case the item is no
    longer found; and running the same update again changes nothing more in
    the database. *)
Theorem update_then_get :
  ∀ (c c1 : NedisClient) (table : string) (sd : SchemaDefinition) (p : string)
    (data o : JsObject),
    ready c → registered c table sd →
    update table p data c = (Resolved o, c1) →
    (truthy (stored_form o !! pk sd) = true →
       get table p c1 = (Resolved (stored_form o), c1))
    ∧ (truthy (stored_form o !! pk sd) = false →
       get table p c1 = (Rejected (ItemNotFoundError p table), c1))
    ∧ database (update table p data c1).2 = database c1.
Proof.
  intros c c1 table sd p data o Hr Hs H. unfold database.
  apply (update_resolved_inv c table sd p data o c1 Hr Hs) in H
    as (h & Hh & Ht & -> & ->).
  set (o := object_assign (hash_object h) data).
  set (d1 := <[getKey table p := RHash (object_fields o)]> (db (redis c))).
  assert (hash_of d1 (getKey table p) = Some (object_fields o)) as Hh1
    by apply hash_of_insert_eq.
  split_and!.
  - intros Ht1. rewrite (get_eq _ table p sd) by done.
    rewrite db_set_db, Hh1. fold (stored_form o). by rewrite Ht1.
  - intros Ht1. rewrite (get_eq _ table p sd) by done.
    rewrite db_set_db, Hh1. fold (stored_form o). by rewrite Ht1.
  - rewrite (update_eq _ table p data sd) by done.
    rewrite db_set_db, Hh1. fold (stored_form o).
    destruct (truthy (stored_form o !! pk sd)); [|reflexivity].
    cbv zeta. cbn [snd]. rewrite !db_set_db. unfold o at 1.
    rewrite object_fields_assign_again. fold o. unfold d1.
    apply insert_insert_eq.
Qed.

Lemma update_then_get_witness :
  ∃ o c1, update "users" "1" age_five blaney_stored = (Resolved o, c1)
          ∧ get "users" "1" c1 = (Resolved (stored_form o), c1).
Proof.
  assert (update "users" "1" age_five blaney_stored
          = (Resolved (object_assign blaney age_five),
             (update "users" "1" age_five blaney_stored).2)) as Hup
    by (vm_compute; reflexivity).
  eexists _, _. split; [exact Hup|].
  apply (proj1 (update_then_get blaney_stored _ "users" users "1" age_five _
                  eq_refl eq_refl Hup)).
  vm_compute. reflexivity.
Defined.

(** ** The keys an operation writes *)



(** ** Insert and the listing *)

Lemma hash_of_insert_ne (d : Database) key key' v :
  key ≠ key' → hash_of (<[key := v]> d) key' = hash_of d key'.
Proof. intros. unfold hash_of. by rewrite lookup_insert_ne. Qed.

Lemma mapM_hash_of_frame (d d' : Database) (l : list string) hs :
  mapM (hash_of d) l = Some hs →
  (∀ k, k ∈ l → hash_of d' k = hash_of d k) →
  mapM (hash_of d') l = Some hs.
Proof.
  rewrite !mapM_Some. intros H Hsame.
  induction H as [|k h l hs Hk _ IH]; [constructor|]. constructor.
  - rewrite Hsame; [done | by left].
  - apply IH. intros k' Hk'. apply Hsame. by right.
Qed.

(** X14: [insert] adds the record at the end of the listing.  When [getAll]
    resolves before a successful [insert], it resolves after it with the
    same records followed by the inserted one, its values as strings. *)
Theorem insert_appends_to_getAll :
  ∀ (c c0 c1 : NedisClient) (table : string) (sd : SchemaDefinition) (r : JsObject)
    (rs : list JsObject),
    ready c → registered c table sd →
    getAll table c = (Resolved rs, c0) →
    insert table r c = (Resolved true, c1) →
    getAll table c1 = (Resolved (rs ++ [stored_form r]), c1).
Proof.
  intros c c0 c1 table sd r rs Hr Hs Hall Hins.
  rewrite (getAll_eq c table sd Hr Hs) in Hall.
  apply (insert_resolved_inv c table sd r true c1 Hr Hs) in Hins
    as (_ & Hv & Hex & Hne & l & Hm & Hin & ->).
  rewrite Hm in Hall. destruct (mapM _ l) as [hs|] eqn:Hhs; [|done]. simplify_eq.
  set (key := getKey table (join_elem (r !! pk sd))) in *.
  rewrite (getAll_eq _ table sd) by done. rewrite db_set_db.
  rewrite members_of_insert_ne by apply getKey_ne_table.
  rewrite members_of_insert_eq.
  assert (mapM (hash_of (<[key := RHash (object_fields r)]>
                           (<[table := RList (l ++ [key])]> (db (redis c))))) (l ++ [key])
          = Some (hs ++ [object_fields r])) as ->.
  { apply mapM_Some, Forall2_app.
    - apply mapM_Some. apply (mapM_hash_of_frame (db (redis c))); [done|].
      intros k Hk. assert (k ≠ key) by (by intros ->).
      assert (k ≠ table) as Hkt.
      { intros ->. apply mapM_Some in Hhs.
        apply list_elem_of_lookup in Hk as [i Hi].
        destruct (Forall2_lookup_l _ _ _ _ _ Hhs Hi) as (h & _ & Hh).
        unfold members_of in Hm. unfold hash_of in Hh.
        destruct (db (redis c) !! table) as [[]|]; simplify_eq. }
      rewrite hash_of_insert_ne by done. by rewrite hash_of_insert_ne by done.
    - constructor; [|constructor]. apply hash_of_insert_eq. }
  rewrite fmap_app. reflexivity.
Qed.

Lemma insert_appends_to_getAll_witness :
  ∃ c1, insert "users" david blaney_stored = (Resolved true, c1)
        ∧ getAll "users" c1 = (Resolved ([blaney] ++ [stored_form david]), c1).
Proof.
  assert (getAll "users" blaney_stored = (Resolved [blaney], blaney_stored)) as Hall
    by (vm_compute; reflexivity).
  assert (insert "users" david blaney_stored
          = (Resolved true, (insert "users" david blaney_stored).2)) as Hins
    by (vm_compute; reflexivity).
  eexists. split; [exact Hins|].
  exact (insert_appends_to_getAll blaney_stored _ _ "users" users david [blaney]
           eq_refl eq_refl Hall Hins).
Defined.

Lemma operations_need_schema_witness :
  insert "cats" ralph (client_on [dogs] ∅)
  = (Rejected (UnregisteredSchemaError "cats"), set_connected (client_on [dogs] ∅))
  ∧ getAll "cats" (client_on [dogs] ∅)
    = (Rejected (UnregisteredSchemaError "cats"), set_connected (client_on [dogs] ∅)).
Proof.
  destruct (operations_need_schema (client_on [dogs] ∅) "cats" "1" ralph eq_refl eq_refl)
    as (Hins & _ & Hall & _).
  by split.
Defined.

Lemma operations_need_connection_witness :
  get "users" "1" unreachable_client
  = (Rejected (connection_refused unreachable_client), unreachable_client)
  ∧ message (connection_refused unreachable_client)
    = "Connection Error: Could not connect to redis at localhost:1234".
Proof.
  destruct (operations_need_connection unreachable_client "users" "1" andy eq_refl eq_refl)
    as (_ & Hget & _).
  split; [exact Hget | reflexivity].
Defined.

(** ** The registry *)

Lemma find_append {A} (f : A → bool) (l1 l2 : list A) :
  find f (l1 ++ l2) = match find f l1 with
                      | Some x => Some x
                      | None => find f l2
                      end.
Proof. induction l1 as [|x l1 IH]; simpl; [done|]. by destruct (f x). Qed.

(** X15: a definition that was registered is the one its table name resolves
    to, and registering it changes what no other table name resolves to. *)
Theorem registerSchema_then_validateSchema :
  ∀ (c c' : NedisClient) (sd : SchemaDefinition),
    registerSchema sd c = (Resolved tt, c') →
    validateSchema (name sd) c' = (Resolved sd, c')
    ∧ (∀ table, table ≠ name sd →
         (validateSchema table c').1 = (validateSchema table c).1)
    ∧ database c' = database c.
Proof.
  intros c c' sd H. unfold registerSchema in H.
  destruct (find _ (registeredSchemas c)) eqn:Hf; [done|]. simplify_eq.
  unfold validateSchema. simpl registeredSchemas. split_and!.
  - rewrite find_append, Hf. simpl. by rewrite bool_decide_eq_true_2.
  - intros table Hne. rewrite find_append.
    destruct (find (λ s, bool_decide (name s = table)) (registeredSchemas c)); [done|].
    simpl find. rewrite bool_decide_eq_false_2; [done | by intros E].
  - reflexivity.
Qed.

Lemma registerSchema_then_validateSchema_witness :
  ∃ c', registerSchema dogs (client_on [users] ∅) = (Resolved tt, c')
        ∧ validateSchema "dogs" c' = (Resolved dogs, c').
Proof.
  eexists. split; [reflexivity|].
  exact (proj1 (registerSchema_then_validateSchema (client_on [users] ∅) _ dogs eq_refl)).
Defined.

Lemma find_name_NoDup (l : list SchemaDefinition) (sd : SchemaDefinition) :
  NoDup (name <$> l) → sd ∈ l →
  find (λ s, bool_decide (name s = name sd)) l = Some sd.
Proof.
  induction l as [|s l IH]; intros Hnd Hsd; [by apply elem_of_nil in Hsd|].
  rewrite fmap_cons in Hnd. apply NoDup_cons in Hnd as [Hs Hnd]. simpl.
  apply elem_of_cons in Hsd as [->|Hsd].
  - by rewrite bool_decide_eq_true_2.
  - rewrite bool_decide_eq_false_2; [by apply IH|].
    intros E. apply Hs. rewrite E. by apply list_elem_of_fmap_2.
Qed.

Lemma preserves_registerSchema_NoDup sd :
  preserves (λ c, NoDup (name <$> registeredSchemas c)) (registerSchema sd).
Proof.
  intros c Hnd. unfold registerSchema.
  destruct (find _ _) eqn:Hf; [done|]. apply find_name_None in Hf. simpl.
  rewrite fmap_app. apply NoDup_app. split; [done|]. split; [|apply NoDup_singleton].
  intros x Hx Hx'. by apply list_elem_of_singleton in Hx' as ->.
Qed.

(** X16: the registry never holds a table name twice.  Starting from a
    registry with distinct names, a batch registration leaves the names
    distinct whether it resolves or stops on a duplicate, and then a table
    name resolves to the definition that carries it, if there is one. *)
Theorem registry_names_stay_distinct :
  ∀ (c : NedisClient) (defs : list SchemaDefinition),
    NoDup (name <$> registeredSchemas c) →
    NoDup (name <$> registeredSchemas (registerSchemas defs c).2)
    ∧ ∀ sd, sd ∈ registeredSchemas (registerSchemas defs c).2 →
        validateSchema (name sd) (registerSchemas defs c).2
        = (Resolved sd, (registerSchemas defs c).2).
Proof.
  intros c defs Hnd.
  assert (NoDup (name <$> registeredSchemas (registerSchemas defs c).2)) as Hnd'.
  { revert c Hnd. induction defs as [|sd defs IH]; intros c Hnd; [done|].
    simpl. apply (preserves_await (λ c, NoDup (name <$> registeredSchemas c))); [| |done].
    - apply preserves_registerSchema_NoDup.
    - intros _ c1 Hc1. by apply IH. }
  split; [done|]. intros sd Hsd. unfold validateSchema.
  by rewrite (find_name_NoDup _ sd Hnd' Hsd).
Qed.

Lemma registry_names_stay_distinct_witness :
  validateSchema "dogs" (registerSchemas [users; dogs; users] (client_on [] ∅)).2
  = (Resolved dogs, (registerSchemas [users; dogs; users] (client_on [] ∅)).2).
Proof.
  refine (proj2 (registry_names_stay_distinct (client_on [] ∅) [users; dogs; users] _)
            dogs _).
  - constructor.
  - vm_compute. apply elem_of_cons. right. apply elem_of_cons. by left.
Defined.

(** ** Keys of tables named without a colon *)

Lemma colon_free_tail a s : colon_free (String a s) → colon_free s.
Proof. intros H s1 s2 ->. by apply (H (String a s1) s2). Qed.

(** X18: the key of a record determines the record when table names have
    no colon.  The key of a record is never the key of its table's index,
    one table never gives one key to two primary keys, and two tables named
    without a colon never share a key, whatever the primary keys are. *)
Theorem getKey_injective_without_colon :
  ∀ (t1 t2 p1 p2 : string),
    getKey t1 p1 ≠ t1
    ∧ (getKey t1 p1 = getKey t1 p2 → p1 = p2)
    ∧ (colon_free t1 → colon_free t2 →
       getKey t1 p1 = getKey t2 p2 → t1 = t2 ∧ p1 = p2).
Proof.
  intros t1 t2 p1 p2. split_and!.
  - apply getKey_ne_table.
  - apply getKey_inj.
  - unfold getKey. revert t2. induction t1 as [|a t1 IH]; intros [|b t2] H1 H2 E; simpl in E.
    + by simplify_eq.
    + injection E as <- _. exfalso. by apply (H2 "" t2).
    + injection E as -> _. exfalso. by apply (H1 "" t1).
    + simplify_eq. apply colon_free_tail in H1, H2.
      destruct (IH t2 H1 H2) as [-> ->]; done.
Qed.

(** ** The first version *)

(** X19: the current [insert] keeps the checks of the first version.
    [insert] of the first version throws for a table that is not
    registered and for a record its validator refuses, and does nothing
    else; whenever it throws, the current [insert] on a reachable server
    rejects with the error of the same class and content, before any
    command is sent. *)
Theorem legacy_insert_checks_kept :
  ∀ (c : NedisClient) (table : string) (data : JsObject),
    (∀ e, Legacy.insert table data (registeredSchemas c) = inl e →
       (e = Legacy.UnregisteredSchemaError table
        ∨ ∃ sd msg, registered c table sd ∧ schema sd data = Some msg
                    ∧ e = Legacy.ValidationError msg)
       ∧ (ready c →
          insert table data c = (Rejected (current_error e), set_connected c)))
    ∧ (Legacy.insert table data (registeredSchemas c) = inr tt →
       ∃ sd, registered c table sd ∧ schema sd data = None).
Proof.
  intros c table data. unfold Legacy.insert, Legacy.getSchema, Legacy.validateData.
  destruct (find (λ s, bool_decide (name s = table)) (registeredSchemas c)) as [sd|] eqn:Hf.
  - destruct (schema sd data) as [msg|] eqn:Hv.
    + split; [|done]. intros e E. simplify_eq. split; [right; by exists sd, msg|].
      intros Hr. by rewrite (insert_eq c table data sd Hr Hf), Hv.
    + split; [done|]. intros _. by exists sd.
  - split; [|done]. intros e E. simplify_eq. split; [by left|].
    intros Hr. unfold insert.
    rewrite (await_resolved _ _ _ _ _ (checkConnection_ready c Hr)).
    by rewrite (await_rejected _ _ _ _ _
                  (validateSchema_unregistered (set_connected c) table Hf)).
Qed.

(** Table names of the tests have no colon. *)
Lemma colon_free_users : colon_free "users".
Proof.
  intros s1 s2 E.
  do 5 (destruct s1 as [|? s1]; simpl in E; [discriminate E | injection E as _ E]).
  destruct s1; discriminate E.
Qed.
